(** * The 1C-to-SQL query generator ([sql_query_generator.py])

    A shallow embedding of the class [SQLQueryGenerator]: the field
    classifier, the join resolver, the query assembler with its three
    per-instance dictionaries, the metadata getters and the line-oriented
    alias renamer, followed by the properties proved about them.

    Python values are modelled as follows.
    - [str] is [string]: the bytes of the UTF-8 encoding of the text.  Equality,
      concatenation, [split], [replace] and [in] on encoded text agree with
      the same operations on code points, because no encoding of a character
      occurs inside or across the encodings of others.
    - a missing cell of the mapping ([NaN], tested with [pd.isna]) is [None];
      as a dictionary key it is one key, the one object pandas puts in every
      missing cell of a text column.
    - the three columns on whose cells the code calls a method of [str] or
      concatenates (type tag, physical column, relation) hold a [value]: a
      text, a missing cell or a number, so that the [AttributeError] and the
      [TypeError] of a cell that is not text are part of the model.  The
      other columns are compared and formatted only, and are read as text.
    - a [dict] is an association list in insertion order: assigning to a key
      that is present keeps its position, a new key goes last.
    - the instance is a record of its three dictionaries, threaded through a
      state-and-exception monad; the state survives a raised exception, as the
      object does. *)

From Stdlib Require Import String Ascii List Bool Arith Lia.
From Stdlib Require Import DecimalString Decimal.
Import ListNotations.
Open Scope string_scope.

Set Implicit Arguments.

(** ** Python strings *)

Module Str.

Definition nl : string := String (ascii_of_nat 10) EmptyString.
Definition dq : string := String (ascii_of_nat 34) EmptyString.
Definition sq : string := String (ascii_of_nat 39) EmptyString.

(** [str(n)] for a non-negative integer. *)
Definition of_nat (n : nat) : string := NilEmpty.string_of_uint (Nat.to_uint n).

(** [s.startswith(p)]. *)
Fixpoint startswith (p s : string) : bool :=
  match p, s with
  | EmptyString, _ => true
  | String a p', String b s' => Ascii.eqb a b && startswith p' s'
  | String _ _, EmptyString => false
  end.

(** [s[n:]]. *)
Fixpoint drop (n : nat) (s : string) : string :=
  match n, s with
  | O, _ => s
  | S n', String _ s' => drop n' s'
  | S _, EmptyString => EmptyString
  end.

(** [p in s]. *)
Fixpoint contains (p s : string) : bool :=
  startswith p s ||
  match s with
  | EmptyString => false
  | String _ s' => contains p s'
  end.

(** [s.split(sep, 1)], for a non-empty [sep]: [None] stands for the
    one-element list [[s]], [Some (a, b)] for [[a, b]]. *)
Fixpoint split_once (sep s : string) : option (string * string) :=
  if startswith sep s then Some (EmptyString, drop (String.length sep) s)
  else match s with
       | EmptyString => None
       | String c s' =>
           match split_once sep s' with
           | Some (a, b) => Some (String c a, b)
           | None => None
           end
       end.

(** [s.split(sep)[0]]. *)
Definition split_head (sep s : string) : string :=
  match split_once sep s with
  | Some (a, _) => a
  | None => s
  end.

(** [s.split(c)] for a one-character separator. *)
Fixpoint split_char (c : ascii) (s : string) : list string :=
  match s with
  | EmptyString => [EmptyString]
  | String a s' =>
      if Ascii.eqb a c then EmptyString :: split_char c s'
      else match split_char c s' with
           | l :: ls => String a l :: ls
           | [] => [String a EmptyString]
           end
  end.

(** [sep.join(parts)]. *)
Fixpoint join (sep : string) (parts : list string) : string :=
  match parts with
  | [] => EmptyString
  | [p] => p
  | p :: ps => p ++ sep ++ join sep ps
  end.

(** [s.replace(old, new)]: every non-overlapping occurrence, left to right.
    [skip] counts the characters of a matched occurrence still to be passed. *)
Fixpoint replace_from (skip : nat) (old new s : string) : string :=
  match s with
  | EmptyString =>
      match old with EmptyString => new | _ => EmptyString end
  | String c s' =>
      match skip with
      | S k => replace_from k old new s'
      | O =>
          if startswith old s
          then match old with
               | EmptyString => new ++ String c (replace_from 0 old new s')
               | String _ old' => new ++ replace_from (String.length old') old new s'
               end
          else String c (replace_from 0 old new s')
      end
  end.

Definition replace (old new s : string) : string := replace_from 0 old new s.

End Str.

Import Str.

(** ** Python dictionaries *)

(** Keys are compared with a boolean equality that decides [=]. *)
Class Key (K : Type) := {
  keqb : K -> K -> bool;
  keqb_spec : forall a b : K, reflect (a = b) (keqb a b)
}.

#[export] Instance Key_string : Key string :=
  {| keqb := String.eqb; keqb_spec := String.eqb_spec |}.

(** A cell that may be missing: [None] is pandas' [NaN]. *)
Abbreviation cell := (option string) (only parsing).

Definition cell_eqb (a b : cell) : bool :=
  match a, b with
  | Some x, Some y => String.eqb x y
  | None, None => true
  | _, _ => false
  end.

Lemma cell_eqb_spec (a b : cell) : reflect (a = b) (cell_eqb a b).
Proof.
  destruct a as [x|], b as [y|]; simpl; try (constructor; congruence).
  destruct (String.eqb_spec x y); constructor; congruence.
Defined.

#[export] Instance Key_cell : Key cell :=
  {| keqb := cell_eqb; keqb_spec := cell_eqb_spec |}.

(** A cell that need not be text: text, missing ([NaN]), or a number, an
    [int] or a [float] that is not [NaN], given by the text [str] prints for
    it.  A number has neither [split] nor [replace] and cannot be added to a
    [str]. *)
Inductive value :=
| Text (s : string)
| Missing
| Number (shown : string).

(** [f"{v}"]. *)
Definition show (v : value) : string :=
  match v with
  | Text s => s
  | Missing => "nan"
  | Number shown => shown
  end.

Module Dict.
Section Dict.
Context {K V : Type} `{Key K}.

Definition dict := list (K * V).

(** [d.get(k)]. *)
Fixpoint get (k : K) (d : dict) : option V :=
  match d with
  | [] => None
  | (k', v) :: d' => if keqb k' k then Some v else get k d'
  end.

(** [k in d]. *)
Definition mem (k : K) (d : dict) : bool :=
  match get k d with Some _ => true | None => false end.

(** [d[k] = v]: in place when [k] is present, at the end otherwise. *)
Fixpoint set (k : K) (v : V) (d : dict) : dict :=
  match d with
  | [] => [(k, v)]
  | (k', v') :: d' =>
      if keqb k' k then (k', v) :: d' else (k', v') :: set k v d'
  end.

(** [d.values()], in insertion order. *)
Definition values (d : dict) : list V := map snd d.

Definition keys (d : dict) : list K := map fst d.

(** A run of assignments [d[k] = v], first to last. *)
Definition set_all (ops : list (K * V)) (d : dict) : dict :=
  fold_left (fun acc kv => set (fst kv) (snd kv) acc) ops d.
End Dict.
#[global] Arguments dict : clear implicits.
End Dict.

Import Dict.

(** ** The mapping table *)

(** One line of the mapping table, with the column of the sheet each field
    is read from.  The type tag, the physical column and the relation are
    cells of any kind; the external table is text or missing; the logical
    table, the field name and the physical table are text. *)
Record Row := {
  table_1c : string;        (* 'Имя таблицы 1С' *)
  field_name : string;      (* 'Имя поля 1С' *)
  field_type : value;       (* 'ТипПоля1С' *)
  gk_table : string;        (* 'SQL таблица' *)
  gk_field : value;         (* 'SQL Имя поля' *)
  external_table : cell;    (* 'SQLВнешняяТаблица' *)
  relation : value          (* 'Связи' *)
}.

Definition DataFrame := list Row.

(** [f"{x}"] of a cell: a missing cell prints as [nan]. *)
Definition fmt (c : cell) : string :=
  match c with Some s => s | None => "nan" end.

(** ** The instance and its monad *)

Record generator := {
  _queries : dict string string;
  _aliases : dict string (dict string string);
  _join_info : dict string (dict string string)
}.

(** The instance as [__init__] leaves it. *)
Definition new_generator : generator :=
  {| _queries := []; _aliases := []; _join_info := [] |}.

Inductive exn :=
| KeyError (key : cell)
| ValueError (msg : string)
| IndexError
| AttributeError
| TypeError.

Inductive result (A : Type) :=
| Ok (a : A)
| Raise (e : exn).
Arguments Ok {A} a.
Arguments Raise {A} e.

(** A method of the instance: the instance after the call, and what the
    call returned or raised. *)
Definition M (A : Type) := generator -> generator * result A.

Definition ret {A} (a : A) : M A := fun self => (self, Ok a).
Definition raise {A} (e : exn) : M A := fun self => (self, Raise e).
Definition bind {A B} (m : M A) (k : A -> M B) : M B :=
  fun self =>
    match m self with
    | (self', Ok a) => k a self'
    | (self', Raise e) => (self', Raise e)
    end.
(** A computation that does not touch the instance. *)
Definition lift {A} (r : result A) : M A := fun self => (self, r).
Definition read : M generator := fun self => (self, Ok self).
Definition modify (f : generator -> generator) : M unit :=
  fun self => (f self, Ok tt).

Declare Scope py_scope.
Delimit Scope py_scope with py.
Notation "x <- m ;; k" := (bind m (fun x => k))
  (at level 61, m at next level, right associativity) : py_scope.
Notation "' p <- m ;; k" := (bind m (fun x => let p := x in k))
  (at level 61, p pattern, m at next level, right associativity) : py_scope.
Notation "m ;; k" := (bind m (fun _ => k))
  (at level 61, right associativity) : py_scope.
Open Scope py_scope.

(** [d[k]], which raises [KeyError] on a missing key. *)
Definition getitem {A} (k : cell) (d : dict cell A) : M A :=
  match get k d with
  | Some v => ret v
  | None => raise (KeyError k)
  end.

(** ** The generator *)

(** [get_available_tables]: the logical table names, each once, in the order
    of first appearance. *)
Fixpoint unique (seen l : list string) : list string :=
  match l with
  | [] => []
  | x :: l' =>
      if existsb (String.eqb x) seen then unique seen l'
      else x :: unique (x :: seen) l'
  end.

Definition get_available_tables (df : DataFrame) : list string :=
  unique [] (map table_1c df).

(** [field_type.split] of a number raises. *)
Definition _get_field_type_info (field_type : value) : result (string * string) :=
  match field_type with
  | Missing => Ok ("regular", EmptyString)
  | Number _ => Raise AttributeError
  | Text field_type =>
      let type_category := split_head "." field_type in
      if type_category =? "Справочник" then Ok ("reference", "_Description")
      else if type_category =? "Документ" then Ok ("document", "_Number")
      else if type_category =? "Перечисление" then Ok ("enum", "_EnumOrder")
      else Ok ("reference", "_Description")
  end.

(** [a + b] where [a] is text or missing: two texts are concatenated, a text
    and anything else raise, and [NaN] plus a number is [NaN]. *)
Definition add (a : cell) (b : value) : result cell :=
  match a, b with
  | Some x, Text y => Ok (Some (x ++ y))
  | Some _, _ => Raise TypeError
  | None, Text _ => Raise TypeError
  | None, _ => Ok None
  end.

(** [self._aliases[table_1c_name][alias] = expr]. *)
Definition _aliases_setitem (table_1c_name alias expr : string) : M unit :=
  self <- read ;;
  match get table_1c_name (_aliases self) with
  | None => raise (KeyError (Some table_1c_name))
  | Some d =>
      modify (fun self =>
        {| _queries := _queries self;
           _aliases := set table_1c_name (set alias expr d) (_aliases self);
           _join_info := _join_info self |})
  end.

Definition _add_join_info (table_1c_name alias join_condition : string) : M unit :=
  modify (fun self =>
    let join_info :=
      if mem table_1c_name (_join_info self) then _join_info self
      else set table_1c_name [] (_join_info self) in
    let d := match get table_1c_name join_info with Some d => d | None => [] end in
    {| _queries := _queries self;
       _aliases := _aliases self;
       _join_info := set table_1c_name (set alias join_condition d) join_info |}).

Definition _process_regular_field (row : Row) (table_1c_name : string)
    (join_aliases : dict cell string) : M string :=
  let field_name := field_name row in
  let gk_table := gk_table row in
  let gk_field := gk_field row in
  a <- getitem (Some gk_table) join_aliases ;;
  let select_part :=
    a ++ "." ++ show gk_field ++ " AS " ++ dq ++ field_name ++ dq in
  _aliases_setitem table_1c_name field_name (a ++ "." ++ show gk_field) ;;
  ret select_part.

(** The two mutable objects a generation shares with the field processors. *)
Record joins := {
  join_aliases : dict cell string;
  join_tracker : list string
}.

(** [alias_counter] is passed by value: the increment the source does inside
    this method is lost on return and is not modelled.  [relation.replace]
    of a number raises; the key [external_table + gk_field] is computed after
    the JOIN clause is recorded. *)
Definition _process_reference_field (row : Row) (table_1c_name : string)
    (j : joins) (alias_counter : nat) (main_table : string)
    : M (list string * joins) :=
  let field_name := field_name row in
  let gk_table := gk_table row in
  let gk_field := gk_field row in
  let external_table := external_table row in
  let relation := relation row in
  info <- lift (_get_field_type_info (field_type row)) ;;
  let external_field := snd info in
  a <- getitem (Some gk_table) (join_aliases j) ;;
  let select_part_id :=
    a ++ "." ++ show gk_field ++ " AS " ++ dq ++ field_name ++ "_ID" ++ dq in
  _aliases_setitem table_1c_name (field_name ++ "_ID")
    (a ++ "." ++ show gk_field) ;;
  if keqb external_table (Some main_table) then
    let alias := "parent_" ++ show gk_field in
    let join_key := fmt external_table ++ "_" ++ alias in
    j <- (if negb (existsb (String.eqb join_key) (join_tracker j)) then
            let join_condition :=
              "main.[" ++ show gk_field ++ "] = " ++ alias ++ ".[_IDRRef]" in
            _add_join_info table_1c_name alias
              ("LEFT JOIN " ++ fmt external_table ++ " " ++ alias
               ++ " ON " ++ join_condition) ;;
            key <- lift (add external_table gk_field) ;;
            ret {| join_aliases := set key alias (join_aliases j);
                   join_tracker := join_key :: join_tracker j |}
          else ret j) ;;
    let select_part_desc :=
      alias ++ "." ++ external_field ++ " AS " ++ dq ++ field_name ++ dq in
    _aliases_setitem table_1c_name field_name (alias ++ "." ++ external_field) ;;
    ret ([select_part_id; select_part_desc], j)
  else
    j <- (if negb (mem external_table (join_aliases j)) then
            let alias := "ext_" ++ of_nat alias_counter in
            let j := {| join_aliases := set external_table alias (join_aliases j);
                        join_tracker := join_tracker j |} in
            let join_key := fmt external_table ++ "_" ++ alias in
            match relation with
            | Text relation =>
                if negb (existsb (String.eqb join_key) (join_tracker j)) then
                  let join_condition :=
                    replace ("[" ++ fmt external_table ++ "]") alias relation in
                  let join_condition :=
                    replace ("[" ++ main_table ++ "]") "main" join_condition in
                  _add_join_info table_1c_name alias
                    ("LEFT JOIN " ++ fmt external_table ++ " " ++ alias
                     ++ " ON " ++ join_condition) ;;
                  ret {| join_aliases := join_aliases j;
                         join_tracker := join_key :: join_tracker j |}
                else ret j
            | Number _ =>
                if negb (existsb (String.eqb join_key) (join_tracker j)) then
                  raise AttributeError
                else ret j
            | Missing => ret j
            end
          else ret j) ;;
    a' <- getitem external_table (join_aliases j) ;;
    let select_part_desc :=
      a' ++ "." ++ external_field ++ " AS " ++ dq ++ field_name ++ dq in
    _aliases_setitem table_1c_name field_name (a' ++ "." ++ external_field) ;;
    ret ([select_part_id; select_part_desc], j).

(** What the loop of [generate_query] carries from one row to the next. *)
Record loop := {
  select_parts : list string;
  shared : joins;
  alias_counter : nat
}.

(** [field_name not in include_aliases], for a filter that is given. *)
Definition skipped (include_aliases : option (list string)) (row : Row) : bool :=
  match include_aliases with
  | Some fields => negb (existsb (String.eqb (field_name row)) fields)
  | None => false
  end.

(** The body of [for _, row in table_data.iterrows()]. *)
Fixpoint process_rows (table_1c_name : string)
    (include_aliases : option (list string)) (main_table : string)
    (rows : list Row) (l : loop) : M loop :=
  match rows with
  | [] => ret l
  | row :: rest =>
      if skipped include_aliases row then
        process_rows table_1c_name include_aliases main_table rest l
      else
        info <- lift (_get_field_type_info (field_type row)) ;;
        if fst info =? "regular" then
          select_part <-
            _process_regular_field row table_1c_name (join_aliases (shared l)) ;;
          process_rows table_1c_name include_aliases main_table rest
            {| select_parts := (select_parts l ++ [select_part])%list;
               shared := shared l;
               alias_counter := alias_counter l |}
        else
          '(ref_parts, j) <-
            _process_reference_field row table_1c_name (shared l)
              (alias_counter l) main_table ;;
          process_rows table_1c_name include_aliases main_table rest
            {| select_parts := (select_parts l ++ ref_parts)%list;
               shared := j;
               alias_counter := alias_counter l + 1 |}
  end.

(** The text put together after the loop. *)
Definition assemble (select_parts : list string) (main_table : string)
    (join_conditions : list string) : string :=
  fold_left (fun sql_query join_condition => sql_query ++ nl ++ join_condition)
    join_conditions
    (("SELECT" ++ nl ++ "    " ++ join ("," ++ nl ++ "    ") select_parts)
       ++ nl ++ "FROM " ++ main_table ++ " main").

(** [self.df[self.df['Имя таблицы 1С'] == table_1c_name]]. *)
Definition table_data (df : DataFrame) (table_1c_name : string) : list Row :=
  filter (fun row => table_1c row =? table_1c_name) df.

(** The two [if table_1c_name not in ...] initialisations. *)
Definition init_stores (table_1c_name : string) : M unit :=
  modify (fun self =>
    {| _queries := _queries self;
       _aliases := if mem table_1c_name (_aliases self) then _aliases self
                   else set table_1c_name [] (_aliases self);
       _join_info := if mem table_1c_name (_join_info self) then _join_info self
                     else set table_1c_name [] (_join_info self) |}).

Definition cache_query (table_1c_name sql_query : string) : M unit :=
  modify (fun self =>
    {| _queries := set table_1c_name sql_query (_queries self);
       _aliases := _aliases self;
       _join_info := _join_info self |}).

(** [generate_query]; the listing of the known tables printed for an unknown
    name is output only and is left out. *)
Definition generate_query (df : DataFrame) (table_1c_name : string)
    (include_aliases : option (list string)) : M (option string) :=
  self <- read ;;
  match get table_1c_name (_queries self), include_aliases with
  | Some sql_query, None => ret (Some sql_query)
  | _, _ =>
      match table_data df table_1c_name with
      | [] => ret None
      | (first :: _) as rows =>
          let main_table := gk_table first in
          init_stores table_1c_name ;;
          l <- process_rows table_1c_name include_aliases main_table rows
                 {| select_parts := [];
                    shared := {| join_aliases := [(Some main_table, "main")];
                                 join_tracker := [] |};
                    alias_counter := 0 |} ;;
          self <- read ;;
          let sql_query :=
            assemble (select_parts l) main_table
              match get table_1c_name (_join_info self) with
              | Some d => values d
              | None => []
              end in
          match include_aliases with
          | None => cache_query table_1c_name sql_query
          | Some _ => ret tt
          end ;;
          ret (Some sql_query)
      end
  end.

Definition get_query_aliases (df : DataFrame) (table_1c_name : string)
    : M (dict string string) :=
  self <- read ;;
  (if negb (mem table_1c_name (_aliases self))
   then generate_query df table_1c_name None ;; ret tt
   else ret tt) ;;
  self <- read ;;
  match get table_1c_name (_aliases self) with
  | None => raise (ValueError ("Таблица '" ++ table_1c_name ++ "' не найдена"))
  | Some d => ret d
  end.

Definition get_table_join_info (df : DataFrame) (table_1c_name : string)
    : M (dict string string) :=
  self <- read ;;
  (if negb (mem table_1c_name (_join_info self))
   then generate_query df table_1c_name None ;; ret tt
   else ret tt) ;;
  self <- read ;;
  match get table_1c_name (_join_info self) with
  | Some d => ret d
  | None => ret []
  end.

(** The calls a client can make on an instance, and a session of them. *)
Inductive call :=
| Generate (table_1c_name : string) (include_aliases : option (list string))
| QueryAliases (table_1c_name : string)
| TableJoinInfo (table_1c_name : string).

Definition call_table (c : call) : string :=
  match c with
  | Generate t _ => t
  | QueryAliases t => t
  | TableJoinInfo t => t
  end.

Definition is_filtered (c : call) : bool :=
  match c with
  | Generate _ (Some _) => true
  | _ => false
  end.

(** The instance after a call; an exception is caught by the client and the
    instance lives on. *)
Definition run_call (df : DataFrame) (c : call) (self : generator) : generator :=
  match c with
  | Generate t f => fst (generate_query df t f self)
  | QueryAliases t => fst (get_query_aliases df t self)
  | TableJoinInfo t => fst (get_table_join_info df t self)
  end.

Definition run_calls (df : DataFrame) (cs : list call) (self : generator)
    : generator :=
  fold_left (fun self c => run_call df c self) cs self.

(** The mappings of the two concrete scenarios. *)
Definition row_date : Row :=
  {| table_1c := "Orders"; field_name := "Date"; field_type := Missing;
     gk_table := "Tbl1"; gk_field := Text "Date1";
     external_table := None; relation := Missing |}.

Definition row_customer : Row :=
  {| table_1c := "Orders"; field_name := "Customer";
     field_type := Text "Catalog.Customer";
     gk_table := "Tbl1"; gk_field := Text "CustRef";
     external_table := Some "Tbl2";
     relation := Text "[Tbl1].CustRef = [Tbl2]._IDRRef" |}.

Definition df_one : DataFrame := [row_date].
Definition df_two : DataFrame := [row_date; row_customer].

(** ** The alias renamer *)

Module Text.

Fixpoint rev_onto (acc s : string) : string :=
  match s with
  | EmptyString => acc
  | String c s' => rev_onto (String c acc) s'
  end.

Definition rev (s : string) : string := rev_onto EmptyString s.

(** [s.endswith(p)]. *)
Definition endswith (p s : string) : bool := startswith (rev p) (rev s).

Definition bytes (l : list nat) : string :=
  fold_right (fun n s => String (ascii_of_nat n) s) EmptyString l.

(** The characters [str.isspace] accepts, each as its UTF-8 encoding:
    U+0009..U+000D, U+001C..U+0020, U+0085, U+00A0, U+1680, U+2000..U+200A,
    U+2028, U+2029, U+202F, U+205F and U+3000. *)
Definition whitespace : list string :=
  (map (fun n => bytes [n]) [9; 10; 11; 12; 13; 28; 29; 30; 31; 32]
   ++ [bytes [194; 133]; bytes [194; 160]; bytes [225; 154; 128]]
   ++ map (fun n => bytes [226; 128; n])
        [128; 129; 130; 131; 132; 133; 134; 135; 136; 137; 138; 168; 169; 175]
   ++ [bytes [226; 129; 159]; bytes [227; 128; 128]])%list.

(** [s.lstrip(chars)] for a set of characters given by their encodings; no
    more than [fuel] characters are removed. *)
Fixpoint lstrip_chars (chars : list string) (fuel : nat) (s : string) : string :=
  match fuel with
  | O => s
  | S fuel' =>
      match find (fun c => startswith c s) chars with
      | Some c => lstrip_chars chars fuel' (drop (String.length c) s)
      | None => s
      end
  end.

Definition lstrip (chars : list string) (s : string) : string :=
  lstrip_chars chars (String.length s) s.

Definition rstrip (chars : list string) (s : string) : string :=
  rev (lstrip_chars (map rev chars) (String.length s) (rev s)).

(** [s.strip(chars)], and [s.strip()] when [chars] is [whitespace]. *)
Definition strip (chars : list string) (s : string) : string :=
  rstrip chars (lstrip chars s).

(** [len(s)]: the number of characters, that is of bytes that do not continue
    an encoding (those are 128..191). *)
Fixpoint len (s : string) : nat :=
  match s with
  | EmptyString => 0
  | String c s' =>
      (if ((128 <=? nat_of_ascii c) && (nat_of_ascii c <? 192))%nat then 0 else 1)
      + len s'
  end.

(** [' ' * n]. *)
Fixpoint spaces (n : nat) : string :=
  match n with
  | O => EmptyString
  | S n' => String " " (spaces n')
  end.

(** [s[1:-1]] of a string whose first and last characters are one byte each. *)
Definition inner (s : string) : string := rev (drop 1 (rev (drop 1 s))).

(** [str.upper] restricted to the letters a..z; it is [str.upper] on ASCII
    text. *)
Definition upper_ascii_char (c : ascii) : ascii :=
  let n := nat_of_ascii c in
  if ((97 <=? n) && (n <=? 122))%nat then ascii_of_nat (n - 32) else c.

Fixpoint upper_ascii (s : string) : string :=
  match s with
  | EmptyString => EmptyString
  | String c s' => String (upper_ascii_char c) (upper_ascii s')
  end.

End Text.

Import Text.

Section Renamer.

(** [str.upper], the case mapping of the Python runtime, is taken as given:
    the properties below hold whatever it does outside ASCII. *)
Variable upper : string -> string.

Definition section_keywords : list string :=
  ["FROM"; "WHERE"; "GROUP"; "HAVING"; "ORDER"; "JOIN"].

(** [stripped_line.upper().startswith('SELECT')]. *)
Definition opens_select (line : string) : bool :=
  startswith "SELECT" (upper (strip whitespace line)).

(** [stripped_line.upper().startswith(('FROM', ..., 'JOIN'))]. *)
Definition closes_select (line : string) : bool :=
  existsb (fun kw => startswith kw (upper (strip whitespace line)))
    section_keywords.

(** The part of the loop body that rewrites a line of the SELECT list. *)
Definition rename_field (normalized_rename : dict string string)
    (line : string) : result string :=
  let stripped_line := strip whitespace line in
  let has_comma := endswith "," stripped_line in
  let clean_line := rstrip [","; " "] stripped_line in
  if contains " AS " (upper clean_line) then
    match split_once " AS " clean_line with
    | None => Raise IndexError
    | Some (part0, part1) =>
        let expr := strip whitespace part0 in
        let alias_part := strip whitespace part1 in
        let alias :=
          if startswith dq alias_part && endswith dq alias_part
          then inner alias_part
          else if startswith sq alias_part && endswith sq alias_part
          then inner alias_part
          else alias_part in
        let new_alias :=
          match get alias normalized_rename with
          | Some v => v
          | None => alias
          end in
        let indent := spaces (len line - len stripped_line) in
        let comma := if has_comma then "," else EmptyString in
        Ok (indent ++ expr ++ " AS " ++ dq ++ new_alias ++ dq ++ comma)
    end
  else if has_comma then Ok (rstrip [","; " "] line ++ ",")
  else Ok line.

(** [for line in lines], with [in_select] as it stands before the line. *)
Fixpoint rename_lines (normalized_rename : dict string string)
    (in_select : bool) (lines : list string) : result (list string) :=
  match lines with
  | [] => Ok []
  | line :: rest =>
      let keep in_select :=
        match rename_lines normalized_rename in_select rest with
        | Ok new_lines => Ok (line :: new_lines)
        | Raise e => Raise e
        end in
      if opens_select line then keep true
      else if closes_select line then keep false
      else if negb in_select then keep in_select
      else
        match rename_field normalized_rename line with
        | Raise e => Raise e
        | Ok new_field =>
            match rename_lines normalized_rename in_select rest with
            | Ok new_lines => Ok (new_field :: new_lines)
            | Raise e => Raise e
            end
        end
  end.

(** The dictionary comprehension that strips both kinds of quote from
    the ends of every key of [rename_dict]. *)
Definition normalize (rename_dict : dict string string) : dict string string :=
  set_all (map (fun kv => (strip [dq; sq] (fst kv), snd kv)) rename_dict) [].

Definition rename_aliases (query : string) (rename_dict : dict string string)
    : result string :=
  match query, rename_dict with
  | EmptyString, _ => Ok query
  | _, [] => Ok query
  | _, _ =>
      match rename_lines (normalize rename_dict) false
              (split_char (ascii_of_nat 10) query) with
      | Ok new_lines => Ok (join nl new_lines)
      | Raise e => Raise e
      end
  end.

(** Whether each line is handled as a line of the SELECT column list: the
    list is entered by a line that opens a SELECT and left by a line that
    starts another section, and those lines are not part of it. *)
Fixpoint in_select_list (in_select : bool) (lines : list string) : list bool :=
  match lines with
  | [] => []
  | line :: rest =>
      if opens_select line then false :: in_select_list true rest
      else if closes_select line then false :: in_select_list false rest
      else in_select :: in_select_list in_select rest
  end.

End Renamer.

(** The complete query of [df_two], as a fresh instance generates it. *)
Definition q_two : string :=
  match snd (generate_query df_two "Orders" None new_generator) with
  | Ok (Some q) => q
  | _ => EmptyString
  end.

(** ** What a generation does to the instance

    The loop of [generate_query] changes the instance only through the two
    assignments below, both under the key of the table being generated. *)

Inductive effect :=
| SetAlias (alias expr : string)
| AddJoin (alias join_condition : string).

Definition apply_effect (t : string) (e : effect) (self : generator) : generator :=
  match e with
  | SetAlias alias expr => fst (_aliases_setitem t alias expr self)
  | AddJoin alias join_condition => fst (_add_join_info t alias join_condition self)
  end.

Definition apply_effects (t : string) (es : list effect) (self : generator)
    : generator :=
  fold_left (fun self e => apply_effect t e self) es self.

(** The assignments to [_join_info[t]] among the effects. *)
Fixpoint join_ops (es : list effect) : list (string * string) :=
  match es with
  | [] => []
  | AddJoin alias join_condition :: es' => (alias, join_condition) :: join_ops es'
  | SetAlias _ _ :: es' => join_ops es'
  end.

(** [m] applies the effects [es] and ends in [r], on every instance that
    has an alias dictionary for [t]. *)
Definition runs {A} (t : string) (m : M A) (es : list effect) (r : result A)
    : Prop :=
  forall self, mem t (_aliases self) = true ->
    m self = (apply_effects t es self, r).

(** [m] runs the same way on every such instance, to a result in [P]. *)
Definition yields {A} (t : string) (m : M A) (P : result A -> Prop) : Prop :=
  exists es r, runs t m es r /\ P r.

(** The end of [generate_query], after the loop. *)
Definition finish (t : string) (include_aliases : option (list string))
    (main_table : string) (r : result loop) (self : generator)
    : generator * result (option string) :=
  match r with
  | Raise e => (self, Raise e)
  | Ok l =>
      let sql_query :=
        assemble (select_parts l) main_table
          match get t (_join_info self) with
          | Some d => values d
          | None => []
          end in
      (match include_aliases with
       | None => fst (cache_query t sql_query self)
       | Some _ => self
       end, Ok (Some sql_query))
  end.

(** The loop state [generate_query] starts from. *)
Definition first_loop (main_table : string) : loop :=
  {| select_parts := [];
     shared := {| join_aliases := [(Some main_table, "main")];
                  join_tracker := [] |};
     alias_counter := 0 |}.

(** [field_type == "regular"] for the row, as the loop tests it. *)
Definition is_regular (row : Row) : bool :=
  match _get_field_type_info (field_type row) with
  | Ok info => fst info =? "regular"
  | Raise _ => false
  end.

Definition is_number (v : value) : bool :=
  match v with Number _ => true | _ => false end.

Definition is_text (v : value) : bool :=
  match v with Text _ => true | _ => false end.

(** The cells of the row hold what the code takes them to hold: a type tag and
    a relation that are text or missing, and a physical column that is
    text. *)
Definition text_cells (row : Row) : bool :=
  negb (is_number (field_type row))
  && negb (is_number (relation row))
  && is_text (gk_field row).

(** The precondition of a generation: every row it processes reads from a
    physical table that is [known], the main table or the external table of
    a reference-like row processed before it. *)
Fixpoint tables_resolved (known : list cell) (rows : list Row) : bool :=
  match rows with
  | [] => true
  | row :: rest =>
      existsb (keqb (Some (gk_table row))) known
      && tables_resolved
           (if is_regular row then known else external_table row :: known) rest
  end.

(** The rows the loop does not skip. *)
Definition processed (include_aliases : option (list string)) (rows : list Row)
    : list Row :=
  filter (fun row => negb (skipped include_aliases row)) rows.

(** [j'] knows every table [j] knows. *)
Definition extends (j j' : joins) : Prop :=
  forall k, mem k (join_aliases j) = true -> mem k (join_aliases j') = true.

(** What the instance stores under one table name. *)
Definition stored (t : string) (self : generator)
    : option string * option (dict string string) * option (dict string string) :=
  (get t (_queries self), get t (_aliases self), get t (_join_info self)).

(** The JOIN clauses as [assemble] appends them, each on a line of its own. *)
Definition join_lines (join_conditions : list string) : string :=
  fold_right (fun join_condition rest => nl ++ join_condition ++ rest)
    EmptyString join_conditions.

(** A mapping with a row whose physical table is neither the main table nor
    an external table. *)
Definition row_note : Row :=
  {| table_1c := "Orders"; field_name := "Note"; field_type := Missing;
     gk_table := "Tbl9"; gk_field := Text "Note1";
     external_table := None; relation := Missing |}.

Definition df_unresolved : DataFrame := [row_date; row_note].

(** The filter a call generates with, when it generates: the two metadata
    getters generate the complete query. *)
Definition call_filter (c : call) : option (list string) :=
  match c with
  | Generate _ f => f
  | _ => None
  end.

(** A mapping in which two fields refer to the same external table and a
    third to another one. *)
Definition row_payer : Row :=
  {| table_1c := "Orders"; field_name := "Payer";
     field_type := Text "Справочник.Контрагенты";
     gk_table := "Tbl1"; gk_field := Text "PayerRef";
     external_table := Some "Tbl2";
     relation := Text "[Tbl1].PayerRef = [Tbl2]._IDRRef" |}.

Definition row_warehouse : Row :=
  {| table_1c := "Orders"; field_name := "Warehouse";
     field_type := Text "Справочник.Склады";
     gk_table := "Tbl1"; gk_field := Text "WhRef";
     external_table := Some "Tbl3";
     relation := Text "[Tbl1].WhRef = [Tbl3]._IDRRef" |}.

Definition df_three : DataFrame := [row_customer; row_payer; row_warehouse].

(** The one-row query with the separator written in lower case and in
    upper case, and renaming maps for the examples. *)
Definition q_lower_as : string :=
  "SELECT" ++ nl ++ "    main.Date1 as " ++ dq ++ "Date" ++ dq ++ nl
  ++ "FROM Tbl1 main".

Definition q_upper_as : string :=
  "SELECT" ++ nl ++ "    main.Date1 AS " ++ dq ++ "Date" ++ dq ++ nl
  ++ "FROM Tbl1 main".

Definition rename_date : dict string string := [("Date", "Day")].

(** [_IDRRef] is a physical column that the query of [df_two] mentions in its
    JOIN condition only. *)
Definition rename_join_column : dict string string :=
  [("_IDRRef", "Key"); ("Date", "Day")].

(** ** Construction and the CTE composer *)

Definition required_columns : list string :=
  ["Имя таблицы 1С"; "Имя поля 1С"; "ТипПоля1С";
   "SQL таблица"; "SQL Имя поля";
   "SQLВнешняяТаблица"; "Связи"].

(** [f"{missing_cols}"]: the [repr] of a list of strings.  Every element is
    one of [required_columns], letters, digits and spaces only, so that its
    [repr] is the string between single quotes. *)
Definition repr_list (l : list string) : string :=
  "[" ++ join ", " (map (fun col => sq ++ col ++ sq) l) ++ "]".

(** [validate_structure], on the column labels of the frame that was read. *)
Definition validate_structure (columns : list string) : result unit :=
  let missing_cols :=
    filter (fun col => negb (existsb (String.eqb col) columns)) required_columns in
  match missing_cols with
  | [] => Ok tt
  | _ => Raise (ValueError ("Отсутствуют обязательные столбцы: "
                            ++ repr_list missing_cols))
  end.

(** [__init__] once the file is read: the column labels decide whether an
    instance is made. *)
Definition init (columns : list string) : result generator :=
  match validate_structure columns with
  | Ok _ => Ok new_generator
  | Raise e => Raise e
  end.

(** What the loop of [generate_cte] carries from one table to the next. *)
Record cte_loop := {
  cte_parts : list string;
  select_fields : list string;
  first_cte : option string
}.

(** [for table_1c_name, fields in metadata.items()]; [metadata] is given by
    its items, in their order. *)
Fixpoint cte_items (df : DataFrame) (items : list (string * list string))
    (c : cte_loop) : M cte_loop :=
  match items with
  | [] => ret c
  | (table_1c_name, fields) :: rest =>
      query <- generate_query df table_1c_name (Some fields) ;;
      match query with
      | None => cte_items df rest c
      | Some EmptyString => cte_items df rest c
      | Some query =>
          let cte_name := replace "." "_" table_1c_name in
          cte_items df rest
            {| cte_parts :=
                 List.app (cte_parts c)
                   [cte_name ++ " AS (" ++ nl ++ query ++ nl ++ ")"];
               select_fields :=
                 List.app (select_fields c)
                   (map (fun field => cte_name ++ "." ++ dq ++ field ++ dq)
                      fields);
               first_cte :=
                 match first_cte c with
                 | None => Some cte_name
                 | Some name => Some name
                 end |}
      end
  end.

Definition no_cte : string :=
  "Не удалось сгенерировать CTE для указанных таблиц".

Definition generate_cte (df : DataFrame) (metadata : list (string * list string))
    : M string :=
  c <- cte_items df metadata
         {| cte_parts := []; select_fields := []; first_cte := None |} ;;
  match cte_parts c with
  | [] => ret no_cte
  | _ =>
      ret ("WITH" ++ nl ++ "    " ++ join ("," ++ nl ++ "    ") (cte_parts c)
           ++ nl ++ "SELECT" ++ nl ++ "    "
           ++ join ("," ++ nl ++ "    ") (select_fields c)
           ++ nl ++ "FROM "
           ++ match first_cte c with Some name => name | None => "None" end)
  end.

(** The separator that only upper-casing brings out of a line. *)
Definition separator_by_case_only (upper : string -> string) (line : string)
    : Prop :=
  let clean_line := rstrip [","; " "] (strip whitespace line) in
  contains " AS " (upper clean_line) = true
  /\ contains " AS " clean_line = false.

(** Whether the mapping has a row of the table. *)
Definition is_known (df : DataFrame) (table_1c_name : string) : bool :=
  match table_data df table_1c_name with
  | [] => false
  | _ => true
  end.

(** An item of [metadata] with the query generated for it, and what
    [generate_cte] makes of the two. *)
Definition cte_name_of (g : string * list string * string) : string :=
  replace "." "_" (fst (fst g)).

Definition cte_part_of (g : string * list string * string) : string :=
  cte_name_of g ++ " AS (" ++ nl ++ snd g ++ nl ++ ")".

Definition cte_fields_of (g : string * list string * string) : list string :=
  map (fun field => cte_name_of g ++ "." ++ dq ++ field ++ dq) (snd (fst g)).

(** The assignments to [_aliases[t]] among the effects. *)
Fixpoint alias_ops (es : list effect) : list (string * string) :=
  match es with
  | [] => []
  | SetAlias alias expr :: es' => (alias, expr) :: alias_ops es'
  | AddJoin _ _ :: es' => alias_ops es'
  end.

(** [m] runs the same way on every instance with an alias dictionary for
    [t], with effects and a result in [P]. *)
Definition yields_fx {A} (t : string) (m : M A)
    (P : list effect -> result A -> Prop) : Prop :=
  exists es r, runs t m es r /\ P es r.

(** A column of the SELECT list, from its output alias and its expression. *)
Definition render (column : string * string) : string :=
  snd column ++ " AS " ++ dq ++ fst column ++ dq.

(** The output aliases of the rows: the field name, after the field name
    with _ID for a reference-like field. *)
Definition output_names (rows : list Row) : list string :=
  flat_map (fun row =>
              if is_regular row then [field_name row]
              else [field_name row ++ "_ID"; field_name row]) rows.

Definition count_references (rows : list Row) : nat :=
  List.length (filter (fun row => negb (is_regular row)) rows).

(** A printable ASCII character other than the space, and a string of
    them. *)
Definition plain_char (c : ascii) : bool :=
  ((33 <=? nat_of_ascii c) && (nat_of_ascii c <=? 126))%nat.

Fixpoint plain (s : string) : bool :=
  match s with
  | EmptyString => true
  | String c s' => plain_char c && plain s'
  end.

(** What the properties below use of [str.upper]: a text that begins with
    ASCII characters is upper-cased by upper-casing these, as [upper_ascii]
    does, and then the rest. *)
Fixpoint ascii_only (s : string) : bool :=
  match s with
  | EmptyString => true
  | String c s' => (nat_of_ascii c <? 128)%nat && ascii_only s'
  end.

Definition upper_on_ascii (upper : string -> string) : Prop :=
  forall a b, ascii_only a = true -> upper (a ++ b) = upper_ascii a ++ upper b.

Definition newline : ascii := ascii_of_nat 10.

(** [c not in s]. *)
Fixpoint free_of (c : ascii) (s : string) : bool :=
  match s with
  | EmptyString => true
  | String a s' => negb (Ascii.eqb a c) && free_of c s'
  end.

(** The expression does not begin, in any case, with a word that opens or
    closes the SELECT list. *)
Definition keyword_free (expr : string) : bool :=
  negb (existsb (fun kw => startswith kw (upper_ascii expr))
          ("SELECT" :: section_keywords)).

(** A column, output alias and expression, that the renamer can read back. *)
Definition readable_column (column : string * string) : Prop :=
  snd column <> EmptyString
  /\ plain (snd column) = true
  /\ keyword_free (snd column) = true
  /\ free_of newline (fst column) = true.

(** The column under the alias the renaming map gives it. *)
Definition rename_column (normalized_rename : dict string string)
    (column : string * string) : string * string :=
  (match get (fst column) normalized_rename with
   | Some v => v
   | None => fst column
   end, snd column).

(** The lines of the SELECT list: a comma after every column but the last. *)
Fixpoint column_lines (parts : list string) : list string :=
  match parts with
  | [] => []
  | [p] => ["    " ++ p]
  | p :: ps => ("    " ++ p ++ ",") :: column_lines ps
  end.

(** The lines of a query as [assemble] lays it out. *)
Definition query_lines (parts : list string) (main_table : string)
    (join_conditions : list string) : list string :=
  "SELECT" :: List.app (column_lines parts)
                (("FROM " ++ main_table ++ " main") :: join_conditions).

(** No byte of the string is a plain character: so are the encodings of the
    whitespace characters. *)
Fixpoint blank (w : string) : bool :=
  match w with
  | EmptyString => true
  | String a w' => negb (plain_char a) && blank w'
  end.

(** The columns and the JOIN of the query of [df_two]. *)
Definition columns_two : list (string * string) :=
  [("Date", "main.Date1"); ("Customer_ID", "main.CustRef");
   ("Customer", "ext_0._Description")].

Definition joins_two : list string :=
  ["LEFT JOIN Tbl2 ext_0 ON main.CustRef = ext_0._IDRRef"].

(** The alias of a table in the expressions of a generation: main, ext_
    and a number, or parent_ and a column, without a space. *)
Definition table_alias (a : string) : bool :=
  plain a
  && (startswith "main" a || startswith "ext_" a || startswith "parent_" a).

(** A JOIN clause on one line. *)
Definition join_line (j : string) : bool :=
  free_of newline j && startswith "LEFT JOIN " j.

(** A row of the mapping table whose physical column is written without a
    space and whose other texts have no line break. *)
Definition clean_row (row : Row) : bool :=
  plain (show (gk_field row))
  && free_of newline (field_name row)
  && free_of newline (fmt (external_table row))
  && match relation row with
     | Text relation => free_of newline relation
     | _ => true
     end.

(** Every table known to the loop has a table alias. *)
Definition tidy_aliases (ja : dict cell string) : Prop :=
  Forall (fun a => table_alias a = true) (values ja).

(** The JOIN clauses among the effects are on one line each. *)
Definition tidy_joins (ops : list (string * string)) : Prop :=
  Forall (fun j => join_line j = true) (map snd ops).

(** The key a reference-like row can add to the aliases of the tables. *)
Definition new_key (row : Row) (main : string) : cell :=
  if keqb (external_table row) (Some main)
  then Some (main ++ show (gk_field row))
  else external_table row.

(** The physical tables a generation can resolve, as far as the rows tell:
    the main table, the external table of a reference-like row processed
    before, and the key a self-referencing row makes of the main table and
    its physical column. *)
Fixpoint tables_reachable (main_table : string) (known : list cell)
    (rows : list Row) : bool :=
  match rows with
  | [] => true
  | row :: rest =>
      existsb (keqb (Some (gk_table row))) known
      && tables_reachable main_table
           (if is_regular row then known else new_key row main_table :: known)
           rest
  end.

(** The columns a row gives, output alias and expression: its physical
    column under some table alias, and for a reference-like row the column
    the classifier names under some table alias. *)
Definition columns_of (row : Row) (columns : list (string * string)) : Prop :=
  match _get_field_type_info (field_type row) with
  | Ok (category, suffix) =>
      if category =? "regular" then
        exists a, columns = [(field_name row, a ++ "." ++ show (gk_field row))]
      else
        exists a a',
          columns = [(field_name row ++ "_ID", a ++ "." ++ show (gk_field row));
                     (field_name row, a' ++ "." ++ suffix)]
  | Raise _ => False
  end.

(** What a row can make a generation raise: [KeyError] for its physical
    table, [AttributeError] when its type tag or its relation is a number,
    [TypeError] when it refers to the main table itself and its physical
    column is not text. *)
Definition fails_at (row : Row) (main_table : string) (e : exn) : Prop :=
  e = KeyError (Some (gk_table row))
  \/ (e = AttributeError
      /\ (is_number (field_type row) = true \/ is_number (relation row) = true))
  \/ (e = TypeError
      /\ external_table row = Some main_table
      /\ is_text (gk_field row) = false).

(** A table that refers to itself, with a row whose physical table is named
    as the key the self-reference makes of the main table and its column. *)
Definition row_parent : Row :=
  {| table_1c := "Items"; field_name := "Parent";
     field_type := Text "Справочник.Номенклатура";
     gk_table := "Tbl5"; gk_field := Text "ParentRef";
     external_table := Some "Tbl5"; relation := Missing |}.

Definition row_odd : Row :=
  {| table_1c := "Items"; field_name := "Odd"; field_type := Missing;
     gk_table := "Tbl5ParentRef"; gk_field := Text "Name";
     external_table := None; relation := Missing |}.

Definition df_self : DataFrame := [row_parent; row_odd].

(** A row of the main table whose type tag is a number. *)
Definition row_quantity : Row :=
  {| table_1c := "Orders"; field_name := "Quantity"; field_type := Number "5";
     gk_table := "Tbl1"; gk_field := Text "Qty";
     external_table := None; relation := Missing |}.

Definition df_number : DataFrame := [row_date; row_quantity].

(** The text of a query in the layout of [generate_query], from its
    columns, each an output alias and an expression, its main table and its
    JOIN lines: SELECT on a line, a line for each column with four spaces in
    front and a comma after all but the last, the FROM line, the JOIN
    lines. *)
Definition layout (columns : list (string * string)) (main_table : string)
    (join_conditions : list string) : string :=
  "SELECT" ++ nl ++ "    "
  ++ join ("," ++ nl ++ "    ") (map render columns)
  ++ nl ++ "FROM " ++ main_table ++ " main"
  ++ join_lines join_conditions.

(** A text with SELECT and FROM on one line, followed by a JOIN line that
    names its alias with AS; and a query with a column that has an AS of its
    own. *)
Definition q_one_line : string :=
  "SELECT a FROM t" ++ nl ++ "LEFT JOIN u AS v ON t.a = v.b".

Definition q_cast : string :=
  "SELECT" ++ nl ++ "    CAST(main.Date1 AS date) AS " ++ dq ++ "Date" ++ dq ++ nl
  ++ "FROM Tbl1 main".

(** * Properties *)

(** ** Dictionaries *)

Section DictFacts.
Context {K V : Type} `{Key K}.
Implicit Types (k : K) (v : V) (d : dict K V).

Lemma keqb_refl k : keqb k k = true.
Proof. destruct (keqb_spec k k); congruence. Qed.

Lemma keqb_neq k k' : k <> k' -> keqb k k' = false.
Proof. destruct (keqb_spec k k'); congruence. Qed.

Lemma get_set_same k v d : get k (set k v d) = Some v.
Proof.
  induction d as [|[k' v'] d IH]; simpl.
  - now rewrite keqb_refl.
  - destruct (keqb k' k) eqn:E; simpl; rewrite E; auto.
Qed.

Lemma get_set_other k k' v d : k <> k' -> get k' (set k v d) = get k' d.
Proof.
  intros Hne. induction d as [|[k0 v0] d IH]; simpl.
  - now rewrite keqb_neq.
  - destruct (keqb_spec k0 k) as [->|]; simpl.
    + now rewrite keqb_neq.
    + now rewrite IH.
Qed.

Lemma mem_set_same k v d : mem k (set k v d) = true.
Proof. unfold mem. now rewrite get_set_same. Qed.

Lemma mem_set_other k k' v d : k <> k' -> mem k' (set k v d) = mem k' d.
Proof. intros. unfold mem. now rewrite get_set_other. Qed.

Lemma mem_set_mono k k' v d : mem k' d = true -> mem k' (set k v d) = true.
Proof.
  intros. destruct (keqb_spec k k') as [->|].
  - apply mem_set_same.
  - now rewrite mem_set_other.
Qed.

Lemma set_get_id k v d : get k d = Some v -> set k v d = d.
Proof.
  induction d as [|[k' v'] d IH]; simpl; [discriminate|].
  destruct (keqb k' k).
  - now intros [= ->].
  - intros. now rewrite IH.
Qed.

Lemma set_set_same k v v' d : set k v (set k v' d) = set k v d.
Proof.
  induction d as [|[k0 v0] d IH]; simpl.
  - now rewrite keqb_refl.
  - destruct (keqb k0 k) eqn:E; simpl; rewrite E; congruence.
Qed.

(** Two assignments to different keys commute once the first key is
    present: neither moves it. *)
Lemma set_comm k k' v v' d :
  k <> k' -> mem k d = true ->
  set k' v' (set k v d) = set k v (set k' v' d).
Proof.
  intros Hne. unfold mem.
  induction d as [|[k0 v0] d IH]; simpl; [discriminate|].
  destruct (keqb_spec k0 k) as [->|Hk]; simpl.
  - intros _. rewrite (keqb_neq Hne). simpl. now rewrite keqb_refl.
  - intros Hm. destruct (keqb k0 k') eqn:E; simpl.
    + now rewrite (keqb_neq Hk).
    + rewrite (keqb_neq Hk). now rewrite IH.
Qed.

Lemma set_all_app ops ops' d :
  set_all (ops ++ ops') d = set_all ops' (set_all ops d).
Proof. apply fold_left_app. Qed.

Lemma mem_set_all ops k d : mem k d = true -> mem k (set_all ops d) = true.
Proof.
  revert d. induction ops as [|[k0 v0] ops IH]; simpl; auto.
  intros. apply IH. now apply mem_set_mono.
Qed.

Lemma set_all_absorbs ops k v d :
  In k (map fst ops) -> mem k d = true ->
  set_all ops (set k v d) = set_all ops d.
Proof.
  revert d. induction ops as [|[k0 v0] ops IH]; simpl; [tauto|].
  intros d Hin Hm. destruct (keqb_spec k0 k) as [->|Hne].
  - now rewrite set_set_same.
  - destruct Hin as [|Hin]; [congruence|].
    rewrite set_comm by congruence.
    apply IH; auto. now apply mem_set_mono.
Qed.

Lemma set_all_passes ops k v d :
  ~ In k (map fst ops) -> mem k d = true ->
  set_all ops (set k v d) = set k v (set_all ops d).
Proof.
  revert d. induction ops as [|[k0 v0] ops IH]; simpl; auto.
  intros d Hin Hm.
  rewrite set_comm by (auto; intuition congruence).
  apply IH; [tauto|]. now apply mem_set_mono.
Qed.

Lemma get_set_all_keeps ops k d :
  ~ In k (map fst ops) -> get k (set_all ops d) = get k d.
Proof.
  revert d. induction ops as [|[k0 v0] ops IH]; simpl; auto.
  intros d Hin. rewrite IH by tauto. apply get_set_other. intuition congruence.
Qed.

(** Running the same assignments a second time changes nothing. *)
Lemma set_all_idempotent ops d :
  set_all ops (set_all ops d) = set_all ops d.
Proof.
  revert d. induction ops as [|[k v] ops IH]; simpl; auto.
  intros d. fold (set_all ops (set k v d)).
  fold (set_all ops (set k v (set_all ops (set k v d)))).
  destruct (in_dec (fun a b => reflect_dec _ _ (keqb_spec a b)) k (map fst ops))
    as [Hin|Hin].
  - rewrite set_all_absorbs; auto.
    apply mem_set_all, mem_set_same.
  - rewrite set_all_passes, IH; auto.
    + apply set_get_id. rewrite get_set_all_keeps by auto. apply get_set_same.
    + apply mem_set_all, mem_set_same.
Qed.

End DictFacts.

(** ** Effects *)

Lemma aliases_setitem_effect t alias expr self :
  mem t (_aliases self) = true ->
  _aliases_setitem t alias expr self
  = (apply_effect t (SetAlias alias expr) self, Ok tt).
Proof.
  unfold mem, apply_effect, _aliases_setitem, bind, read.
  destruct (get t (_aliases self)); [reflexivity|discriminate].
Qed.

Lemma add_join_info_effect t alias join_condition self :
  _add_join_info t alias join_condition self
  = (apply_effect t (AddJoin alias join_condition) self, Ok tt).
Proof. reflexivity. Qed.

Lemma apply_effect_aliases_mem t e self :
  mem t (_aliases self) = true -> mem t (_aliases (apply_effect t e self)) = true.
Proof.
  intros Hm. destruct e; simpl; auto.
  unfold _aliases_setitem, bind, read. unfold mem in Hm.
  destruct (get t (_aliases self)); [|discriminate].
  simpl. apply mem_set_same.
Qed.

Lemma apply_effects_aliases_mem t es self :
  mem t (_aliases self) = true -> mem t (_aliases (apply_effects t es self)) = true.
Proof.
  revert self. induction es; simpl; auto using apply_effect_aliases_mem.
Qed.

Lemma apply_effects_app t es es' self :
  apply_effects t (es ++ es') self = apply_effects t es' (apply_effects t es self).
Proof. apply fold_left_app. Qed.

Lemma apply_effect_queries t e self :
  _queries (apply_effect t e self) = _queries self.
Proof.
  destruct e; simpl; auto.
  unfold _aliases_setitem, bind, read.
  destruct (get t (_aliases self)); reflexivity.
Qed.

Lemma apply_effects_queries t es self :
  _queries (apply_effects t es self) = _queries self.
Proof.
  revert self. induction es; simpl; auto.
  intros. rewrite IHes. apply apply_effect_queries.
Qed.

(** The join dictionary of [t] after one effect. *)
Lemma apply_effect_join_info t e self d :
  get t (_join_info self) = Some d ->
  get t (_join_info (apply_effect t e self))
  = Some (set_all (join_ops [e]) d).
Proof.
  intros Hd. destruct e; simpl.
  - unfold _aliases_setitem, bind, read.
    destruct (get t (_aliases self)); simpl; auto.
  - unfold mem. rewrite Hd. rewrite Hd. apply get_set_same.
Qed.

Lemma join_ops_app es es' : join_ops (es ++ es') = (join_ops es ++ join_ops es')%list.
Proof.
  induction es as [|[]]; simpl; auto. now rewrite IHes.
Qed.

Lemma apply_effects_join_info t es self d :
  get t (_join_info self) = Some d ->
  get t (_join_info (apply_effects t es self)) = Some (set_all (join_ops es) d).
Proof.
  revert self d. induction es as [|e es IH]; simpl; auto.
  intros self d Hd.
  rewrite (IH _ _ (@apply_effect_join_info t e self d Hd)).
  destruct e; reflexivity.
Qed.

(** Nothing stored under another table changes. *)
Lemma apply_effect_frame t t' e self :
  t <> t' ->
  get t' (_aliases (apply_effect t e self)) = get t' (_aliases self)
  /\ get t' (_join_info (apply_effect t e self)) = get t' (_join_info self).
Proof.
  intros Hne. destruct e; simpl.
  - unfold _aliases_setitem, bind, read.
    destruct (get t (_aliases self)); simpl; auto.
    split; auto. now apply get_set_other.
  - split; auto. rewrite get_set_other by auto.
    destruct (mem t (_join_info self)); auto. now apply get_set_other.
Qed.

Lemma apply_effects_frame t t' es self :
  t <> t' ->
  get t' (_aliases (apply_effects t es self)) = get t' (_aliases self)
  /\ get t' (_join_info (apply_effects t es self)) = get t' (_join_info self).
Proof.
  intros Hne. revert self. induction es as [|e es IH]; simpl; auto.
  intros self. destruct (IH (apply_effect t e self)) as [-> ->].
  now apply apply_effect_frame.
Qed.

(** ** Rules for [runs] and [yields] *)

Section Rules.
Context {A B : Type} (t : string).

Lemma runs_bind_ok (m : M A) (k : A -> M B) es es' a r :
  runs t m es (Ok a) -> runs t (k a) es' r ->
  runs t (bind m k) (es ++ es') r.
Proof.
  intros Hm Hk self Hs. unfold bind. rewrite (Hm _ Hs).
  rewrite apply_effects_app. apply Hk.
  now apply apply_effects_aliases_mem.
Qed.

Lemma runs_bind_raise (m : M A) (k : A -> M B) es e :
  runs t m es (Raise e) -> runs t (bind m k) es (Raise e).
Proof. intros Hm self Hs. unfold bind. now rewrite (Hm _ Hs). Qed.

Lemma yields_ret (a : A) (P : result A -> Prop) :
  P (Ok a) -> yields t (ret a) P.
Proof. exists [], (Ok a). split; auto. now intros self _. Qed.

Lemma yields_raise e (P : result A -> Prop) :
  P (Raise e) -> yields t (raise e) P.
Proof. exists [], (Raise e). split; auto. now intros self _. Qed.

Lemma yields_bind (m : M A) (k : A -> M B) (P : result A -> Prop)
    (Q : result B -> Prop) :
  yields t m P ->
  (forall a, P (Ok a) -> yields t (k a) Q) ->
  (forall e, P (Raise e) -> Q (Raise e)) ->
  yields t (bind m k) Q.
Proof.
  intros (es & r & Hm & HP) Hk He. destruct r as [a|e].
  - destruct (Hk a HP) as (es' & r' & Hk' & HQ).
    exists (es ++ es')%list, r'. split; auto. eapply runs_bind_ok; eauto.
  - exists es, (Raise e). split; auto. now apply runs_bind_raise.
Qed.

Lemma yields_lift (r : result A) : yields t (lift r) (fun r' => r' = r).
Proof. exists [], r. split; auto. now intros self _. Qed.

Lemma yields_weaken (m : M A) (P Q : result A -> Prop) :
  yields t m P -> (forall r, P r -> Q r) -> yields t m Q.
Proof. intros (es & r & Hm & HP) H. exists es, r. auto. Qed.

Lemma yields_getitem (k : cell) (d : dict cell A) :
  yields t (getitem k d)
    (fun r => r = match get k d with
                  | Some v => Ok v
                  | None => Raise (KeyError k)
                  end).
Proof.
  unfold getitem. destruct (get k d).
  - now apply yields_ret.
  - now apply yields_raise.
Qed.
End Rules.

Lemma yields_aliases_setitem t alias expr (P : result unit -> Prop) :
  P (Ok tt) -> yields t (_aliases_setitem t alias expr) P.
Proof.
  exists [SetAlias alias expr], (Ok tt). split; auto.
  intros self Hs. now apply aliases_setitem_effect.
Qed.

Lemma yields_add_join_info t alias join_condition (P : result unit -> Prop) :
  P (Ok tt) -> yields t (_add_join_info t alias join_condition) P.
Proof.
  exists [AddJoin alias join_condition], (Ok tt). split; auto.
  now intros self Hs.
Qed.

(** ** The field processors *)

Lemma extends_refl j : extends j j.
Proof. now intros k. Qed.

Lemma regular_field_yields row t ja :
  yields t (_process_regular_field row t ja)
    (fun r => mem (Some (gk_table row)) ja = true -> exists s, r = Ok s).
Proof.
  unfold _process_regular_field.
  eapply yields_bind; [apply yields_getitem| |].
  - intros a _.
    eapply yields_bind with (P := fun r => r = Ok tt).
    + now apply yields_aliases_setitem.
    + intros _ _. apply yields_ret. eauto.
    + discriminate.
  - intros e He Hm. unfold mem in Hm. cbv beta zeta in He.
    destruct (get (Some (gk_table row)) ja); discriminate.
Qed.

(** A row whose physical table has no alias makes its processor raise, and
    leaves the instance as it was. *)
Lemma regular_field_unresolved row t ja self :
  get (Some (gk_table row)) ja = None ->
  _process_regular_field row t ja self
  = (self, Raise (KeyError (Some (gk_table row)))).
Proof.
  intros H. unfold _process_regular_field, bind, getitem. now rewrite H.
Qed.

Lemma reference_field_unresolved row t j n main info self :
  _get_field_type_info (field_type row) = Ok info ->
  get (Some (gk_table row)) (join_aliases j) = None ->
  _process_reference_field row t j n main self
  = (self, Raise (KeyError (Some (gk_table row)))).
Proof.
  intros Hinfo H. unfold _process_reference_field, bind, lift, getitem.
  now rewrite Hinfo, H.
Qed.

Lemma text_cells_fields row :
  text_cells row = true ->
  (exists info, _get_field_type_info (field_type row) = Ok info)
  /\ (exists g, gk_field row = Text g)
  /\ is_number (relation row) = false.
Proof.
  unfold text_cells. intros H.
  apply andb_prop in H as [H Hg]. apply andb_prop in H as [Ht Hr].
  repeat split.
  - destruct (field_type row) as [tag| |shown]; simpl in *;
      [|eauto|discriminate].
    repeat match goal with
           | |- context [if ?b then _ else _] => destruct b
           end; eauto.
  - destruct (gk_field row); simpl in Hg; try discriminate; eauto.
  - now apply negb_true_iff in Hr.
Qed.

Lemma reference_field_yields row t j n main :
  yields t (_process_reference_field row t j n main)
    (fun r =>
       text_cells row = true ->
       mem (Some (gk_table row)) (join_aliases j) = true ->
       exists parts j',
         r = Ok (parts, j') /\ extends j j'
         /\ (mem (Some main) (join_aliases j) = true ->
             mem (external_table row) (join_aliases j') = true)).
Proof.
  unfold _process_reference_field.
  eapply yields_bind; [apply yields_lift| |]; cycle 1.
  { cbv beta. intros e He Ht _.
    apply text_cells_fields in Ht as [[info Hinfo] _]. congruence. }
  intros info _.
  eapply yields_bind; [apply yields_getitem| |]; cycle 1.
  { intros e He _ Hm. unfold mem in Hm. cbv beta zeta in He.
    destruct (get (Some (gk_table row)) (join_aliases j)); discriminate. }
  intros a _.
  eapply yields_bind with (P := fun r => r = Ok tt);
    [now apply yields_aliases_setitem| |discriminate].
  intros _ _.
  destruct (keqb_spec (external_table row) (Some main)) as [Hself|Hother].
  - eapply yields_bind
      with (P := fun r => text_cells row = true ->
                          exists j', r = Ok j' /\ extends j j').
    + destruct (negb (existsb _ _)).
      * eapply yields_bind with (P := fun r => r = Ok tt);
          [now apply yields_add_join_info| |discriminate].
        intros _ _.
        eapply yields_bind; [apply yields_lift| |].
        -- intros key _. apply yields_ret. intros _.
           eexists. split; [reflexivity|].
           intros k Hk. simpl. now apply mem_set_mono.
        -- cbv beta. intros e He Ht.
           apply text_cells_fields in Ht as (_ & [g Hg] & _).
           rewrite Hself, Hg in He. discriminate.
      * apply yields_ret. intros _.
        eexists. split; [reflexivity|apply extends_refl].
    + intros j' Hj'.
      eapply yields_bind with (P := fun r => r = Ok tt);
        [now apply yields_aliases_setitem| |discriminate].
      intros _ _. apply yields_ret. intros Ht _.
      destruct (Hj' Ht) as (j'' & [= <-] & Hext).
      do 2 eexists. split; [reflexivity|]. split; auto.
      rewrite Hself. auto.
    + intros e He Ht _. destruct (He Ht) as (j' & [=] & _).
  - eapply yields_bind
      with (P := fun r => text_cells row = true ->
                          exists j', r = Ok j' /\ extends j j'
                          /\ mem (external_table row) (join_aliases j') = true).
    + destruct (negb _) eqn:Hmem.
      * assert (Hnew : forall jt,
                  extends j {| join_aliases :=
                                 set (external_table row) ("ext_" ++ of_nat n)
                                     (join_aliases j);
                               join_tracker := jt |}).
        { intros jt k Hk. simpl. now apply mem_set_mono. }
        destruct (relation row) as [text| |shown] eqn:Hrel;
          [destruct (negb (existsb _ _))| |destruct (negb (existsb _ _))].
        -- eapply yields_bind with (P := fun r => r = Ok tt);
             [now apply yields_add_join_info| |discriminate].
           intros _ _. apply yields_ret. intros _.
           eexists. split; [reflexivity|].
           split; [apply Hnew|]. simpl. apply mem_set_same.
        -- apply yields_ret. intros _. eexists. split; [reflexivity|].
           split; [apply Hnew|]. simpl. apply mem_set_same.
        -- apply yields_ret. intros _. eexists. split; [reflexivity|].
           split; [apply Hnew|]. simpl. apply mem_set_same.
        -- apply yields_raise. intros Ht.
           apply text_cells_fields in Ht as (_ & _ & Hr).
           rewrite Hrel in Hr. discriminate.
        -- apply yields_ret. intros _. eexists. split; [reflexivity|].
           split; [apply Hnew|]. simpl. apply mem_set_same.
      * apply yields_ret. intros _. eexists. split; [reflexivity|].
        split; [apply extends_refl|]. now apply negb_false_iff in Hmem.
    + intros j' Hj'.
      eapply yields_bind; [apply yields_getitem| |].
      * intros a' _.
        eapply yields_bind with (P := fun r => r = Ok tt);
          [now apply yields_aliases_setitem| |discriminate].
        intros _ _. apply yields_ret. intros Ht _.
        destruct (Hj' Ht) as (j'' & [= <-] & Hext & Hm').
        do 2 eexists. split; [reflexivity|]. split; auto.
      * intros e He Ht _. destruct (Hj' Ht) as (j'' & [= <-] & Hext & Hm').
        unfold mem in Hm'. cbv beta zeta in He.
        destruct (get (external_table row) (join_aliases j')); discriminate.
    + intros e He Ht _. destruct (He Ht) as (j' & [=] & _).
Qed.

(** ** The loop and the whole generation *)

Lemma existsb_keqb_In (k : cell) (known : list cell) :
  existsb (keqb k) known = true -> In k known.
Proof.
  intros H. apply existsb_exists in H as (x & Hx & Hk).
  destruct (keqb_spec k x); [now subst|discriminate].
Qed.

Lemma process_rows_yields t f main rows :
  forall l known,
    yields t (process_rows t f main rows l)
      (fun r =>
         forallb text_cells (processed f rows) = true ->
         (forall k, In k known -> mem k (join_aliases (shared l)) = true) ->
         mem (Some main) (join_aliases (shared l)) = true ->
         tables_resolved known (processed f rows) = true ->
         exists l', r = Ok l').
Proof.
  induction rows as [|row rest IH]; intros l known; cbn [process_rows].
  - apply yields_ret. eauto.
  - unfold processed. cbn [filter]. fold (processed f rest).
    destruct (skipped f row); cbn [negb]; [now apply IH|].
    cbn [forallb tables_resolved]. unfold is_regular.
    eapply yields_bind; [apply yields_lift| |].
    + cbv beta. intros info Hinfo. rewrite <- Hinfo.
      destruct (fst info =? "regular").
      * eapply yields_bind; [apply regular_field_yields| |].
        -- intros s _. eapply yields_weaken; [apply (IH _ known)|].
           cbv beta. cbn [shared]. intros r Hr Ht Hknown Hmain H.
           apply andb_prop in H. apply andb_prop in Ht. apply Hr; tauto.
        -- cbv beta. intros e He Ht Hknown Hmain H.
           apply andb_prop in H as [H _].
           destruct He as [s Hs]; [|discriminate].
           now apply Hknown, existsb_keqb_In.
      * eapply yields_bind; [apply reference_field_yields| |].
        -- intros [parts j'] Hj.
           eapply yields_weaken; [apply (IH _ (external_table row :: known))|].
           cbv beta. cbn [shared]. intros r Hr Ht Hknown Hmain H.
           apply andb_prop in H as [Hgk H]. apply andb_prop in Ht as [Hrow Ht].
           destruct Hj as (parts' & j'' & [= <- <-] & Hext & Hnew); auto.
           { now apply Hknown, existsb_keqb_In. }
           apply Hr; auto.
           intros k [<-|Hk]; auto.
        -- cbv beta. intros e He Ht Hknown Hmain H.
           apply andb_prop in H as [H _]. apply andb_prop in Ht as [Hrow _].
           destruct He as (parts & j' & [=] & _); auto.
           now apply Hknown, existsb_keqb_In.
    + cbv beta. intros e He Ht _ _ _. apply andb_prop in Ht as [Hrow _].
      apply text_cells_fields in Hrow as [[info Hinfo] _]. congruence.
Qed.

(** [generate_query] in terms of one run of its loop. *)
Lemma generate_query_unknown df t f self :
  table_data df t = [] ->
  generate_query df t f self
  = match get t (_queries self), f with
    | Some sql_query, None => (self, Ok (Some sql_query))
    | _, _ => (self, Ok None)
    end.
Proof.
  intros Htd. unfold generate_query, bind, read. rewrite Htd.
  destruct (get t (_queries self)), f; reflexivity.
Qed.

Lemma init_stores_aliases_mem t self :
  mem t (_aliases (fst (init_stores t self))) = true.
Proof.
  simpl. destruct (mem t (_aliases self)) eqn:E; auto. apply mem_set_same.
Qed.

Lemma generate_query_known df t f first rest es r :
  table_data df t = first :: rest ->
  runs t (process_rows t f (gk_table first) (first :: rest)
            (first_loop (gk_table first))) es r ->
  forall self,
    generate_query df t f self
    = match get t (_queries self), f with
      | Some sql_query, None => (self, Ok (Some sql_query))
      | _, _ => finish t f (gk_table first) r
                  (apply_effects t es (fst (init_stores t self)))
      end.
Proof.
  intros Htd Hruns self.
  pose proof (Hruns _ (init_stores_aliases_mem t self)) as Hrun.
  unfold generate_query, bind, read. rewrite Htd.
  unfold first_loop in Hrun.
  destruct (get t (_queries self)), f; try reflexivity;
    unfold init_stores, modify in *; simpl in Hrun |- *;
    rewrite Hrun; destruct r; reflexivity.
Qed.

(** Every generation of a known table runs its loop in one way. *)
Lemma generation_runs df t f first rest :
  table_data df t = first :: rest ->
  exists es r,
    runs t (process_rows t f (gk_table first) (first :: rest)
              (first_loop (gk_table first))) es r
    /\ (forallb text_cells (processed f (first :: rest)) = true ->
        tables_resolved [Some (gk_table first)] (processed f (first :: rest)) = true
        -> exists l, r = Ok l).
Proof.
  intros _.
  destruct (process_rows_yields t f (gk_table first) (first :: rest)
              (first_loop (gk_table first)) [Some (gk_table first)])
    as (es & r & Hruns & Hr).
  exists es, r. split; auto. intros Ht H. apply Hr; auto.
  - intros k [<-|[]]. simpl. unfold mem. simpl. now rewrite String.eqb_refl.
  - simpl. unfold mem. simpl. now rewrite String.eqb_refl.
Qed.

(** ** The two concrete scenarios *)

(** C2: for the mapping with the single row (Orders, Date, no type tag, Tbl1,
    Date1), [generate_query('Orders')] returns exactly the three lines
    SELECT / main.Date1 AS "Date" / FROM Tbl1 main, and no JOIN clause is
    recorded for the table. *)
Theorem C2_one_row_query :
  snd (generate_query df_one "Orders" None new_generator)
  = Ok (Some ("SELECT" ++ nl
              ++ "    main.Date1 AS " ++ dq ++ "Date" ++ dq ++ nl
              ++ "FROM Tbl1 main"))
  /\ snd (get_table_join_info df_one "Orders" new_generator) = Ok [].
Proof. split; reflexivity. Qed.

(** C1: with the second row (Orders, Customer, Catalog.Customer, Tbl1,
    CustRef, Tbl2, the relation between [Tbl1] and [Tbl2]) the query has the
    column of the one-row query followed by exactly two more, aliased
    Customer_ID and Customer, and exactly one JOIN clause: a LEFT JOIN of Tbl2
    under the alias ext_0, on the relation with [Tbl2] replaced by ext_0 and
    [Tbl1] by main. *)
Theorem C1_reference_row_adds_two_columns_and_one_join :
  let date := "main.Date1 AS " ++ dq ++ "Date" ++ dq in
  let customer_id := "main.CustRef AS " ++ dq ++ "Customer_ID" ++ dq in
  let customer := "ext_0._Description AS " ++ dq ++ "Customer" ++ dq in
  let condition :=
    replace "[Tbl1]" "main"
      (replace "[Tbl2]" "ext_0" "[Tbl1].CustRef = [Tbl2]._IDRRef") in
  snd (generate_query df_one "Orders" None new_generator)
  = Ok (Some (assemble [date] "Tbl1" []))
  /\ snd (generate_query df_two "Orders" None new_generator)
     = Ok (Some (assemble [date; customer_id; customer] "Tbl1"
                   ["LEFT JOIN Tbl2 ext_0 ON " ++ condition]))
  /\ snd (generate_query df_two "Orders" None new_generator)
     = Ok (Some ("SELECT" ++ nl
                 ++ "    main.Date1 AS " ++ dq ++ "Date" ++ dq ++ "," ++ nl
                 ++ "    main.CustRef AS " ++ dq ++ "Customer_ID" ++ dq ++ "," ++ nl
                 ++ "    ext_0._Description AS " ++ dq ++ "Customer" ++ dq ++ nl
                 ++ "FROM Tbl1 main" ++ nl
                 ++ "LEFT JOIN Tbl2 ext_0 ON main.CustRef = ext_0._IDRRef"))
  /\ snd (get_table_join_info df_two "Orders" new_generator)
     = Ok [("ext_0", "LEFT JOIN Tbl2 ext_0 ON " ++ condition)]
  /\ snd (get_query_aliases df_two "Orders" new_generator)
     = Ok [("Date", "main.Date1"); ("Customer_ID", "main.CustRef");
           ("Customer", "ext_0._Description")].
Proof. cbv zeta. repeat split; reflexivity. Qed.

(** ** The field classifier *)

Lemma split_head_segment (a b : string) :
  contains "." a = false -> split_head "." (a ++ "." ++ b) = a.
Proof.
  unfold split_head. induction a as [|c a IH]; cbn -[Ascii.eqb]; auto.
  destruct (Ascii.eqb "." c); cbn -[Ascii.eqb]; [discriminate|].
  intros Ha. specialize (IH Ha). cbn -[Ascii.eqb] in IH.
  destruct (split_once "." (a ++ String "." b)) as [[x y]|]; congruence.
Qed.

(** C5, as the code has it: the classifier is a function of the type tag
    alone.  A missing tag gives regular with no suffix.  A tag that is present
    is classified by its segment before the first dot: the catalog tag gives
    reference with _Description, the document tag gives document with
    _Number, the enumeration tag gives enum with _EnumOrder, and every other
    tag, the empty string included, gives reference with _Description. *)
Theorem C5_classifier_by_leading_segment :
  _get_field_type_info Missing = Ok ("regular", EmptyString)
  /\ (forall tag,
        split_head "." tag = "Справочник" ->
        _get_field_type_info (Text tag) = Ok ("reference", "_Description"))
  /\ (forall tag,
        split_head "." tag = "Документ" ->
        _get_field_type_info (Text tag) = Ok ("document", "_Number"))
  /\ (forall tag,
        split_head "." tag = "Перечисление" ->
        _get_field_type_info (Text tag) = Ok ("enum", "_EnumOrder"))
  /\ (forall tag,
        split_head "." tag <> "Справочник" ->
        split_head "." tag <> "Документ" ->
        split_head "." tag <> "Перечисление" ->
        _get_field_type_info (Text tag) = Ok ("reference", "_Description"))
  /\ (forall name,
        _get_field_type_info (Text ("Справочник" ++ "." ++ name))
        = Ok ("reference", "_Description")
        /\ _get_field_type_info (Text ("Документ" ++ "." ++ name))
           = Ok ("document", "_Number")
        /\ _get_field_type_info (Text ("Перечисление" ++ "." ++ name))
           = Ok ("enum", "_EnumOrder"))
  /\ _get_field_type_info (Text EmptyString) = Ok ("reference", "_Description").
Proof.
  split; [reflexivity|].
  split; [intros tag H; unfold _get_field_type_info; now rewrite H|].
  split; [intros tag H; unfold _get_field_type_info; now rewrite H|].
  split; [intros tag H; unfold _get_field_type_info; now rewrite H|].
  split.
  - intros tag H1 H2 H3. unfold _get_field_type_info.
    destruct (String.eqb_spec (split_head "." tag) "Справочник"); [congruence|].
    destruct (String.eqb_spec (split_head "." tag) "Документ"); [congruence|].
    destruct (String.eqb_spec (split_head "." tag) "Перечисление"); congruence.
  - split; [|reflexivity].
    intros name. unfold _get_field_type_info.
    rewrite !split_head_segment by reflexivity. repeat split; reflexivity.
Qed.

(** C5 as the claim states it fails on the empty tag, which is not missing:
    it is classified as a reference. *)
Lemma C5_empty_tag_is_not_regular :
  _get_field_type_info (Text EmptyString) <> Ok ("regular", EmptyString).
Proof. discriminate. Qed.

(** ** A filter that matches no field *)

Lemma append_assoc (a b c : string) : (a ++ b) ++ c = a ++ b ++ c.
Proof. induction a; simpl; congruence. Qed.

Lemma append_empty_r (a : string) : a ++ EmptyString = a.
Proof. induction a; simpl; congruence. Qed.

Lemma assemble_join_lines select_parts main_table join_conditions :
  assemble select_parts main_table join_conditions
  = "SELECT" ++ nl ++ "    " ++ join ("," ++ nl ++ "    ") select_parts
    ++ nl ++ "FROM " ++ main_table ++ " main" ++ join_lines join_conditions.
Proof.
  unfold assemble.
  set (head := "SELECT" ++ nl ++ "    " ++ join ("," ++ nl ++ "    ") select_parts).
  transitivity ((head ++ nl ++ "FROM " ++ main_table ++ " main")
                ++ join_lines join_conditions).
  - generalize (head ++ nl ++ "FROM " ++ main_table ++ " main").
    induction join_conditions as [|c cs IH]; intros base; simpl.
    + now rewrite append_empty_r.
    + rewrite IH. now rewrite !append_assoc.
  - now rewrite !append_assoc.
Qed.

Lemma process_rows_all_skipped t f main rows l :
  (forall row, In row rows -> skipped f row = true) ->
  process_rows t f main rows l = ret l.
Proof.
  induction rows as [|row rest IH]; simpl; auto.
  intros H. rewrite (H row) by auto. auto.
Qed.

Lemma init_stores_join_info t self :
  get t (_join_info (fst (init_stores t self)))
  = Some match get t (_join_info self) with Some d => d | None => [] end.
Proof.
  simpl. unfold mem.
  destruct (get t (_join_info self)) eqn:E; auto. apply get_set_same.
Qed.

(** C9: for a known table and a filter that names none of its fields,
    [generate_query] does not return [None]: it returns a query whose column
    list is empty, SELECT / four spaces / FROM main-table main, followed by
    the JOIN clauses the instance already holds for the table. *)
Theorem C9_filter_matching_nothing df t fields self first rest :
  table_data df t = first :: rest ->
  (forall row, In row (table_data df t) -> ~ In (field_name row) fields) ->
  snd (generate_query df t (Some fields) self)
  = Ok (Some ("SELECT" ++ nl ++ "    " ++ nl
              ++ "FROM " ++ gk_table first ++ " main"
              ++ join_lines match get t (_join_info self) with
                            | Some d => values d
                            | None => []
                            end)).
Proof.
  intros Htd Hnone.
  assert (Hruns : runs t (process_rows t (Some fields) (gk_table first)
                            (first :: rest) (first_loop (gk_table first)))
                    [] (Ok (first_loop (gk_table first)))).
  { intros s _. rewrite process_rows_all_skipped; auto.
    intros row Hrow. unfold skipped.
    destruct (existsb _ fields) eqn:E; auto.
    apply existsb_exists in E as (x & Hx & Hxe).
    apply String.eqb_eq in Hxe. subst x.
    rewrite <- Htd in Hrow. now destruct (Hnone row Hrow). }
  rewrite (@generate_query_known _ _ _ _ _ _ _ Htd Hruns).
  assert (Hfin : snd (finish t (Some fields) (gk_table first)
                        (Ok (first_loop (gk_table first)))
                        (apply_effects t [] (fst (init_stores t self))))
                 = Ok (Some ("SELECT" ++ nl ++ "    " ++ nl
                             ++ "FROM " ++ gk_table first ++ " main"
                             ++ join_lines match get t (_join_info self) with
                                           | Some d => values d
                                           | None => []
                                           end))).
  { unfold finish, apply_effects, fold_left, snd.
    rewrite init_stores_join_info, assemble_join_lines.
    destruct (get t (_join_info self)); reflexivity. }
  destruct (get t (_queries self)); exact Hfin.
Qed.

Lemma C9_filter_matching_nothing_witness :
  snd (generate_query df_two "Orders" (Some ["Total"])
         (fst (generate_query df_two "Orders" None new_generator)))
  = Ok (Some ("SELECT" ++ nl ++ "    " ++ nl ++ "FROM Tbl1 main" ++ nl
              ++ "LEFT JOIN Tbl2 ext_0 ON main.CustRef = ext_0._IDRRef")).
Proof.
  apply (@C9_filter_matching_nothing df_two "Orders" ["Total"]
           (fst (generate_query df_two "Orders" None new_generator))
           row_date [row_customer]).
  - reflexivity.
  - intros row [<-|[<-|[]]] [H|[]]; discriminate H.
Defined.

(** ** What a call leaves alone *)

Lemma generate_query_hit df t q self :
  get t (_queries self) = Some q ->
  generate_query df t None self = (self, Ok (Some q)).
Proof. intros H. unfold generate_query, bind, read. now rewrite H. Qed.

Lemma generate_query_unknown_state df t f self :
  table_data df t = [] -> fst (generate_query df t f self) = self.
Proof.
  intros H. rewrite generate_query_unknown by auto.
  destruct (get t (_queries self)), f; reflexivity.
Qed.

Lemma init_stores_frame t t' self :
  t <> t' -> stored t' (fst (init_stores t self)) = stored t' self.
Proof.
  intros Hne. unfold stored. simpl.
  destruct (mem t (_aliases self)), (mem t (_join_info self));
    rewrite ?get_set_other by auto; reflexivity.
Qed.

Lemma apply_effects_stored_frame t t' es self :
  t <> t' -> stored t' (apply_effects t es self) = stored t' self.
Proof.
  intros Hne. unfold stored.
  destruct (@apply_effects_frame t t' es self Hne) as [-> ->].
  now rewrite apply_effects_queries.
Qed.

Lemma finish_frame t t' f main r self :
  t <> t' -> stored t' (fst (finish t f main r self)) = stored t' self.
Proof.
  intros Hne. destruct r as [l|e]; simpl; auto.
  destruct f; simpl; auto.
  unfold stored. simpl. now rewrite get_set_other.
Qed.

(** A generation touches nothing stored under another table. *)
Lemma generate_query_frame df t t' f self :
  t <> t' -> stored t' (fst (generate_query df t f self)) = stored t' self.
Proof.
  intros Hne. destruct (table_data df t) as [|first rest] eqn:Htd.
  - now rewrite generate_query_unknown_state.
  - destruct (@generation_runs _ t f _ _ Htd) as (es & r & Hruns & _).
    rewrite (@generate_query_known _ _ _ _ _ _ _ Htd Hruns).
    assert (stored t' (fst (finish t f (gk_table first) r
                              (apply_effects t es (fst (init_stores t self)))))
            = stored t' self) as Hfin.
    { rewrite finish_frame, apply_effects_stored_frame, init_stores_frame; auto. }
    destruct (get t (_queries self)), f; auto.
Qed.

(** A generation under a filter leaves the whole cache as it was. *)
Lemma generate_query_filtered_queries df t fields self :
  _queries (fst (generate_query df t (Some fields) self)) = _queries self.
Proof.
  destruct (table_data df t) as [|first rest] eqn:Htd.
  - now rewrite generate_query_unknown_state.
  - destruct (@generation_runs _ t (Some fields) _ _ Htd) as (es & r & Hruns & _).
    rewrite (@generate_query_known _ _ _ _ _ _ _ Htd Hruns).
    assert (_queries (fst (finish t (Some fields) (gk_table first) r
                             (apply_effects t es (fst (init_stores t self)))))
            = _queries self) as Hfin.
    { destruct r; simpl; now rewrite apply_effects_queries. }
    destruct (get t (_queries self)); auto.
Qed.

(** A complete generation that returned a query has it in the cache. *)
Lemma generate_query_cached df t q self :
  snd (generate_query df t None self) = Ok (Some q) ->
  get t (_queries (fst (generate_query df t None self))) = Some q.
Proof.
  destruct (get t (_queries self)) as [q0|] eqn:Hq.
  - rewrite (@generate_query_hit df t q0 self Hq). simpl. congruence.
  - destruct (table_data df t) as [|first rest] eqn:Htd.
    + rewrite generate_query_unknown by auto. rewrite Hq. discriminate.
    + destruct (@generation_runs _ t None _ _ Htd) as (es & r & Hruns & _).
      rewrite (@generate_query_known _ _ _ _ _ _ _ Htd Hruns), Hq.
      destruct r; simpl; [|discriminate].
      intros [= <-]. apply get_set_same.
Qed.

(** A cached query is never replaced. *)
Lemma generate_query_keeps_cached df t t' f q self :
  get t (_queries self) = Some q ->
  get t (_queries (fst (generate_query df t' f self))) = Some q.
Proof.
  intros Hq. destruct (String.eqb_spec t' t) as [->|Hne].
  - destruct f as [fields|].
    + now rewrite generate_query_filtered_queries.
    + now rewrite (@generate_query_hit df t q self Hq).
  - pose proof (@generate_query_frame df t' t f self Hne) as H.
    unfold stored in H. congruence.
Qed.

(** The metadata getters change the instance as a complete generation does,
    or not at all. *)
Lemma run_call_cases df c self :
  run_call df c self = self
  \/ run_call df c self
     = fst (generate_query df (call_table c) (call_filter c) self).
Proof.
  destruct c as [t f|t|t]; simpl; auto.
  - unfold get_query_aliases, bind, read.
    destruct (negb (mem t (_aliases self))); simpl.
    + right. destruct (generate_query df t None self) as [s' [o|e]]; simpl; auto.
      destruct (get t (_aliases s')); reflexivity.
    + left. destruct (get t (_aliases self)); reflexivity.
  - unfold get_table_join_info, bind, read.
    destruct (negb (mem t (_join_info self))); simpl.
    + right. destruct (generate_query df t None self) as [s' [o|e]]; simpl; auto.
      destruct (get t (_join_info s')); reflexivity.
    + left. destruct (get t (_join_info self)); reflexivity.
Qed.

Lemma run_calls_invariant df (allowed : call -> Prop) (Inv : generator -> Prop) :
  (forall c self, allowed c -> Inv self -> Inv (run_call df c self)) ->
  forall cs self, Forall allowed cs -> Inv self -> Inv (run_calls df cs self).
Proof.
  intros Hstep cs. induction cs as [|c cs IH]; simpl; auto.
  intros self Hall Hinv. inversion Hall; subst. apply IH; auto.
Qed.

Lemma run_calls_keep_cached df t q cs self :
  get t (_queries self) = Some q ->
  get t (_queries (run_calls df cs self)) = Some q.
Proof.
  apply (@run_calls_invariant df (fun _ => True)
           (fun s => get t (_queries s) = Some q)).
  - intros c s _ Hs. destruct (run_call_cases df c s) as [->| ->]; auto.
    now apply generate_query_keeps_cached.
  - now apply Forall_forall.
Qed.

Lemma run_calls_frame df t cs self :
  Forall (fun c => call_table c <> t) cs ->
  stored t (run_calls df cs self) = stored t self.
Proof.
  intros Hcs.
  apply (@run_calls_invariant df (fun c => call_table c <> t)
           (fun s => stored t s = stored t self)); auto.
  intros c s Hc Hs. destruct (run_call_cases df c s) as [->| ->]; auto.
  now rewrite generate_query_frame.
Qed.

(** Nothing is ever stored under a name that is not in the mapping. *)
Lemma run_calls_unknown df t cs self :
  table_data df t = [] -> stored t (run_calls df cs self) = stored t self.
Proof.
  intros Htd.
  apply (@run_calls_invariant df (fun _ => True)
           (fun s => stored t s = stored t self)); auto.
  - intros c s _ Hs. destruct (run_call_cases df c s) as [->| ->]; auto.
    destruct (String.eqb_spec (call_table c) t) as [->|Hne].
    + now rewrite generate_query_unknown_state.
    + now rewrite generate_query_frame.
  - now apply Forall_forall.
Qed.

(** ** Unknown table names *)




(** ** Determinism *)

Lemma generate_query_failed_queries df t first rest es e self :
  table_data df t = first :: rest ->
  runs t (process_rows t None (gk_table first) (first :: rest)
            (first_loop (gk_table first))) es (Raise e) ->
  _queries (fst (generate_query df t None self)) = _queries self.
Proof.
  intros Htd Hruns. rewrite (@generate_query_known _ _ _ _ _ _ _ Htd Hruns).
  destruct (get t (_queries self)); simpl; auto.
  now rewrite apply_effects_queries.
Qed.

Lemma run_calls_keep_uncached df t first rest es e cs self :
  table_data df t = first :: rest ->
  runs t (process_rows t None (gk_table first) (first :: rest)
            (first_loop (gk_table first))) es (Raise e) ->
  get t (_queries self) = None ->
  get t (_queries (run_calls df cs self)) = None.
Proof.
  intros Htd Hruns.
  apply (@run_calls_invariant df (fun _ => True)
           (fun s => get t (_queries s) = None)).
  - intros c s _ Hs. destruct (run_call_cases df c s) as [->|Hc]; auto.
    rewrite Hc. destruct (String.eqb_spec (call_table c) t) as [->|Hne].
    + destruct (call_filter c) as [fields|].
      * now rewrite generate_query_filtered_queries.
      * now rewrite (@generate_query_failed_queries _ _ _ _ _ _ s Htd Hruns).
    + pose proof (@generate_query_frame df _ t (call_filter c) s Hne) as H.
      unfold stored in H. congruence.
  - now apply Forall_forall.
Qed.

(** The join dictionary of [t] after a generation with the effects [es]. *)
Lemma generation_join_info t es self :
  get t (_join_info (apply_effects t es (fst (init_stores t self))))
  = Some (set_all (join_ops es)
            match get t (_join_info self) with Some d => d | None => [] end).
Proof. apply apply_effects_join_info, init_stores_join_info. Qed.

(** C4, as the code has it: two calls of [generate_query] with the same table
    and the same filter give the same result, text for text, when the calls
    made on the instance between them are for other tables; without a filter
    they do so whatever calls are made between them. *)
Theorem C4_same_call_same_text df t f cs self :
  f = None \/ Forall (fun c => call_table c <> t) cs ->
  snd (generate_query df t f (run_calls df cs (fst (generate_query df t f self))))
  = snd (generate_query df t f self).
Proof.
  intros Hcs. destruct (table_data df t) as [|first rest] eqn:Htd.
  - rewrite generate_query_unknown_state by auto.
    rewrite !generate_query_unknown by auto.
    pose proof (@run_calls_unknown df t cs self Htd) as Hs.
    unfold stored in Hs. injection Hs as Hq _ _. rewrite Hq.
    destruct (get t (_queries self)), f; reflexivity.
  - destruct (@generation_runs _ t f _ _ Htd) as (es & r & Hruns & _).
    rewrite !(@generate_query_known _ _ _ _ _ _ _ Htd Hruns).
    destruct f as [fields|].
    + destruct Hcs as [|Hcs]; [discriminate|].
      set (s1 := apply_effects t es (fst (init_stores t self))).
      assert (Hfst : forall o,
                 fst match o, Some fields with
                     | Some sql_query, None => (self, Ok (Some sql_query))
                     | _, _ => finish t (Some fields) (gk_table first) r s1
                     end = s1).
      { intros [q|]; destruct r; reflexivity. }
      rewrite Hfst.
      assert (Hsnd : forall o s,
                 snd match o, Some fields with
                     | Some sql_query, None => (self, Ok (Some sql_query))
                     | _, _ => finish t (Some fields) (gk_table first) r s
                     end
                 = snd (finish t (Some fields) (gk_table first) r s)).
      { intros [q|] s; reflexivity. }
      rewrite !Hsnd. destruct r as [l|e]; [|reflexivity].
      unfold finish, snd.
      pose proof (@run_calls_frame df t cs s1 Hcs) as Hs.
      unfold stored in Hs. injection Hs as _ _ Hj.
      rewrite generation_join_info, Hj. unfold s1.
      rewrite generation_join_info. now rewrite set_all_idempotent.
    + destruct (get t (_queries self)) as [q|] eqn:Hq.
      * simpl. now rewrite (@run_calls_keep_cached df t q cs self Hq).
      * destruct r as [l|e]; simpl.
        -- erewrite run_calls_keep_cached; [reflexivity|].
           simpl. apply get_set_same.
        -- rewrite (@run_calls_keep_uncached df t _ _ _ _ cs _ Htd Hruns);
             [reflexivity|].
           now rewrite apply_effects_queries.
Qed.

Lemma C4_same_call_same_text_witness :
  snd (generate_query df_two "Orders" (Some ["Date"])
         (run_calls df_two [Generate "Invoices" None]
            (fst (generate_query df_two "Orders" (Some ["Date"]) new_generator))))
  = snd (generate_query df_two "Orders" (Some ["Date"]) new_generator).
Proof.
  apply (@C4_same_call_same_text df_two "Orders" (Some ["Date"])
           [Generate "Invoices" None] new_generator).
  right. repeat constructor. discriminate.
Defined.

(** C4 as the claim states it fails: the query for Orders filtered to Date has
    no JOIN clause on a fresh instance, and has the one recorded by the
    complete generation when that is made between the two calls. *)
Lemma C4_filtered_text_changes_after_complete_generation :
  snd (generate_query df_two "Orders" (Some ["Date"])
         (run_calls df_two [Generate "Orders" None]
            (fst (generate_query df_two "Orders" (Some ["Date"]) new_generator))))
  <> snd (generate_query df_two "Orders" (Some ["Date"]) new_generator).
Proof. vm_compute. discriminate. Qed.

(** ** The renamer *)

Lemma split_char_nonempty c s : split_char c s <> [].
Proof.
  destruct s as [|a s]; simpl; [discriminate|].
  destruct (Ascii.eqb a c); [discriminate|].
  destruct (split_char c s); discriminate.
Qed.

Lemma join_split_char s : join nl (split_char (ascii_of_nat 10) s) = s.
Proof.
  induction s as [|a s IH]; cbn -[Ascii.eqb ascii_of_nat]; auto.
  destruct (Ascii.eqb_spec a (ascii_of_nat 10)) as [->|Hne].
  - pose proof (split_char_nonempty (ascii_of_nat 10) s) as Hs.
    cbn -[Ascii.eqb ascii_of_nat split_char].
    destruct (split_char (ascii_of_nat 10) s) eqn:E; [congruence|].
    rewrite IH. reflexivity.
  - pose proof (split_char_nonempty (ascii_of_nat 10) s) as Hs.
    destruct (split_char (ascii_of_nat 10) s) as [|l ls] eqn:E; [congruence|].
    rewrite <- IH. destruct ls; reflexivity.
Qed.

Section RenamerFacts.
Variable upper : string -> string.
Variable normalized_rename : dict string string.

(** The loop keeps one line for one line, and copies every line that is
    not handled as a line of the SELECT list. *)
Lemma rename_lines_frame lines :
  forall in_select new_lines,
    rename_lines upper normalized_rename in_select lines = Ok new_lines ->
    length new_lines = length lines
    /\ forall i line,
         nth_error lines i = Some line ->
         nth_error (in_select_list upper in_select lines) i = Some false ->
         nth_error new_lines i = Some line.
Proof.
  induction lines as [|l rest IH]; intros in_select new_lines; simpl.
  - intros [= <-]. split; auto.
  - assert (Hkeep : forall b,
              match rename_lines upper normalized_rename b rest with
              | Ok new_lines => Ok (l :: new_lines)
              | Raise e => Raise e
              end = Ok new_lines ->
              length new_lines = S (length rest)
              /\ forall i line,
                   nth_error (l :: rest) i = Some line ->
                   nth_error (false :: in_select_list upper b rest) i = Some false ->
                   nth_error new_lines i = Some line).
    { intros b H.
      destruct (rename_lines upper normalized_rename b rest) as [out|] eqn:E;
        [|discriminate].
      injection H as <-. destruct (IH _ _ E) as [Hlen Hnth].
      split; [simpl; congruence|].
      intros [|i] line; simpl; auto. }
    destruct (opens_select upper l); [apply Hkeep|].
    destruct (closes_select upper l); [apply Hkeep|].
    destruct in_select; simpl; [|apply Hkeep].
    destruct (rename_field upper normalized_rename l) as [new_field|];
      [|discriminate].
    destruct (rename_lines upper normalized_rename true rest) as [out|] eqn:E;
      [|discriminate].
    intros [= <-]. destruct (IH _ _ E) as [Hlen Hnth].
    split; [simpl; congruence|].
    intros [|i] line; simpl; auto. discriminate.
Qed.

(** A line that opens or closes the SELECT list is not a line of it. *)
Lemma section_line_outside lines :
  forall in_select i line,
    nth_error lines i = Some line ->
    opens_select upper line || closes_select upper line = true ->
    nth_error (in_select_list upper in_select lines) i = Some false.
Proof.
  induction lines as [|l rest IH]; intros in_select [|i] line; simpl;
    try discriminate.
  - intros [= ->] H.
    destruct (opens_select upper line); auto.
    destruct (closes_select upper line); auto. discriminate.
  - intros Hi H.
    destruct (opens_select upper l); [|destruct (closes_select upper l)];
      simpl; eauto.
Qed.
End RenamerFacts.

(** The JOIN line of the query of [df_two] is outside the SELECT list, and a
    renaming whose key is a column of its condition returns it unchanged. *)
Example join_line_is_kept :
  nth_error (in_select_list upper_ascii false (split_char (ascii_of_nat 10) q_two)) 5
  = Some false
  /\ nth_error (split_char (ascii_of_nat 10) q_two) 5
     = Some "LEFT JOIN Tbl2 ext_0 ON main.CustRef = ext_0._IDRRef"
  /\ match rename_aliases upper_ascii q_two rename_join_column with
     | Ok out =>
         nth_error (split_char (ascii_of_nat 10) out) 5
         = Some "LEFT JOIN Tbl2 ext_0 ON main.CustRef = ext_0._IDRRef"
     | Raise _ => False
     end.
Proof. vm_compute. repeat split; reflexivity. Qed.

(** The separator is looked for in the upper-cased line and the line is split
    at the separator in upper case only: a line of the SELECT list in which
    the first finds it and the second does not makes the renamer raise. *)
Lemma rename_field_case_mismatch upper normalized_rename line :
  let clean_line := rstrip [","; " "] (strip whitespace line) in
  contains " AS " (upper clean_line) = true ->
  split_once " AS " clean_line = None ->
  rename_field upper normalized_rename line = Raise IndexError.
Proof.
  intros clean_line Hin Hsplit. unfold rename_field. fold clean_line.
  now rewrite Hin, Hsplit.
Qed.

(** C8 fails on the code: on the one-row query written with a lower-case
    [as] and a renaming of Date, [rename_aliases] raises [IndexError]; on the
    same query written with [AS] it returns the query with the alias
    renamed. *)
Theorem C8_lowercase_as_raises :
  rename_aliases upper_ascii q_lower_as rename_date = Raise IndexError
  /\ rename_aliases upper_ascii q_upper_as rename_date
     = Ok ("SELECT" ++ nl ++ "    main.Date1 AS " ++ dq ++ "Day" ++ dq ++ nl
           ++ "FROM Tbl1 main").
Proof. split; vm_compute; reflexivity. Qed.

(** * The rest of the class *)

(** ** The known tables *)

Lemma unique_In l : forall seen x,
  In x (unique seen l) <-> In x l /\ ~ In x seen.
Proof.
  induction l as [|y l IH]; intros seen x; simpl; [tauto|].
  destruct (existsb (String.eqb y) seen) eqn:E.
  - apply existsb_exists in E as (z & Hz & Hyz).
    apply String.eqb_eq in Hyz. subst z.
    rewrite IH. split; [tauto|]. intros [[->|H] Hn]; tauto.
  - assert (Hy : ~ In y seen).
    { intros Hy. apply Bool.not_true_iff_false in E. apply E.
      apply existsb_exists. exists y. split; auto. apply String.eqb_refl. }
    simpl. rewrite IH. simpl. split.
    + intros [->|[H Hn]]; [tauto|]. split; [tauto|]. intuition.
    + intros [[->|H] Hn]; [tauto|].
      destruct (String.eqb_spec y x); [tauto|]. right. intuition.
Qed.

Lemma unique_NoDup l : forall seen, NoDup (unique seen l).
Proof.
  induction l as [|y l IH]; intros seen; simpl; [constructor|].
  destruct (existsb (String.eqb y) seen); auto.
  constructor; auto. rewrite unique_In. simpl. tauto.
Qed.

Lemma table_data_nonempty df t :
  table_data df t <> [] <-> In t (map table_1c df).
Proof.
  unfold table_data. induction df as [|row df IH]; simpl; [tauto|].
  destruct (String.eqb_spec (table_1c row) t) as [->|Hne].
  - split; [auto|discriminate].
  - rewrite IH. tauto.
Qed.


(** ** Construction *)

Lemma filter_nil_iff {A} (p : A -> bool) l :
  filter p l = [] <-> forall x, In x l -> p x = false.
Proof.
  induction l as [|a l IH]; simpl; [tauto|].
  destruct (p a) eqn:E.
  - split; [discriminate|]. intros H. rewrite (H a) in E by auto. discriminate.
  - rewrite IH. split; [intros H x [<-|Hx]; auto|auto].
Qed.

Lemma existsb_eqb_In x l : existsb (String.eqb x) l = true <-> In x l.
Proof.
  rewrite existsb_exists. split.
  - intros (y & Hy & Hxy). apply String.eqb_eq in Hxy. now subst.
  - intros H. exists x. split; auto. apply String.eqb_refl.
Qed.

(** X2: an instance is made exactly when the frame has all seven required
    columns, in any order and among any others, and it starts with empty
    cache and registries; otherwise construction raises [ValueError], with
    the message that names the missing required columns, and only those, in
    the order of the required list. *)
Theorem X2_construction_needs_required_columns columns :
  (init columns = Ok new_generator
   <-> forall col, In col required_columns -> In col columns)
  /\ (forall g, init columns = Ok g -> g = new_generator)
  /\ (forall e, init columns = Raise e ->
      exists missing_cols,
        e = ValueError ("Отсутствуют обязательные столбцы: "
                        ++ repr_list missing_cols)
        /\ missing_cols <> []
        /\ missing_cols
           = filter (fun col => negb (existsb (String.eqb col) columns))
               required_columns
        /\ forall col, In col missing_cols
                       <-> In col required_columns /\ ~ In col columns).
Proof.
  unfold init, validate_structure.
  set (missing := filter _ required_columns).
  assert (Hmissing : forall col, In col missing
                                 <-> In col required_columns /\ ~ In col columns).
  { intros col. unfold missing. rewrite filter_In, negb_true_iff.
    rewrite <- (existsb_eqb_In col columns).
    destruct (existsb (String.eqb col) columns); intuition congruence. }
  assert (Hall : missing = [] <->
                 forall col, In col required_columns -> In col columns).
  { split.
    - intros E col Hcol.
      destruct (in_dec string_dec col columns) as [|Hn]; auto.
      assert (In col missing) as Hm by (apply Hmissing; auto).
      rewrite E in Hm. destruct Hm.
    - intros H. destruct missing as [|col rest] eqn:E; auto.
      assert (In col (col :: rest)) as Hin by (simpl; auto).
      apply Hmissing in Hin. destruct Hin as [Hr Hn]. now destruct Hn; auto. }
  split; [|split].
  - rewrite <- Hall. destruct missing; split; congruence.
  - destruct missing; congruence.
  - intros e He. destruct missing as [|col rest] eqn:E; [discriminate|].
    injection He as <-. exists (col :: rest).
    repeat split; try congruence; apply Hmissing; auto.
Qed.

(** ** When the renamer fails *)

Lemma split_once_None sep s :
  split_once sep s = None <-> contains sep s = false.
Proof.
  induction s as [|c s IH].
  - simpl. destruct (startswith sep EmptyString); simpl; split; congruence.
  - cbn [split_once contains].
    destruct (startswith sep (String c s)); simpl; [split; discriminate|].
    rewrite <- IH. destruct (split_once sep s) as [[a b]|]; split; congruence.
Qed.

Lemma rename_field_raises upper normalized_rename line e :
  rename_field upper normalized_rename line = Raise e ->
  e = IndexError /\ separator_by_case_only upper line.
Proof.
  unfold rename_field, separator_by_case_only. cbv zeta.
  destruct (contains " AS " (upper _)) eqn:Hup.
  - destruct (split_once " AS " _) as [[a b]|] eqn:Hsplit; [discriminate|].
    intros [= <-]. apply split_once_None in Hsplit. auto.
  - destruct (endswith "," _); discriminate.
Qed.

Lemma rename_lines_raises upper normalized_rename lines :
  forall in_select e,
    rename_lines upper normalized_rename in_select lines = Raise e ->
    e = IndexError
    /\ exists line, In line lines /\ separator_by_case_only upper line.
Proof.
  induction lines as [|l rest IH]; intros in_select e; simpl; [discriminate|].
  assert (Hkeep : forall b,
            match rename_lines upper normalized_rename b rest with
            | Ok new_lines => Ok (l :: new_lines)
            | Raise e => Raise e
            end = Raise e ->
            e = IndexError
            /\ exists line, (l = line \/ In line rest)
                            /\ separator_by_case_only upper line).
  { intros b H.
    destruct (rename_lines upper normalized_rename b rest) eqn:E;
      [discriminate|].
    injection H as ->. destruct (IH _ _ E) as (He & line & Hin & Hsep).
    split; auto. exists line. auto. }
  destruct (opens_select upper l); [apply Hkeep|].
  destruct (closes_select upper l); [apply Hkeep|].
  destruct in_select; simpl; [|apply Hkeep].
  destruct (rename_field upper normalized_rename l) eqn:Hf.
  - destruct (rename_lines upper normalized_rename true rest) eqn:E;
      [discriminate|].
    intros [= ->]. destruct (IH _ _ E) as (He & line & Hin & Hsep).
    split; auto. exists line. auto.
  - intros [= ->]. apply rename_field_raises in Hf as [He Hsep].
    split; auto. exists l. auto.
Qed.

(** X3: [rename_aliases] raises nothing but [IndexError], and only on a text
    with a line in which the separator AS between spaces is found after
    upper-casing and not as the line is written; on every other text and
    every renaming map it returns. *)
Theorem X3_rename_aliases_failure upper query rename_dict :
  (forall e,
      rename_aliases upper query rename_dict = Raise e ->
      e = IndexError
      /\ exists line,
           In line (split_char (ascii_of_nat 10) query)
           /\ separator_by_case_only upper line)
  /\ ((forall line,
          In line (split_char (ascii_of_nat 10) query) ->
          ~ separator_by_case_only upper line) ->
      exists out, rename_aliases upper query rename_dict = Ok out).
Proof.
  assert (H : forall e,
             rename_aliases upper query rename_dict = Raise e ->
             e = IndexError
             /\ exists line,
                  In line (split_char (ascii_of_nat 10) query)
                  /\ separator_by_case_only upper line).
  { intros e. unfold rename_aliases.
    destruct query as [|c query]; [discriminate|].
    destruct rename_dict as [|kv rename_dict]; [discriminate|].
    destruct (rename_lines upper _ false _) eqn:E; [discriminate|].
    intros [= ->]. now apply rename_lines_raises in E. }
  split; auto.
  intros Hnone. destruct (rename_aliases upper query rename_dict) as [out|e] eqn:E.
  - eauto.
  - destruct (H e eq_refl) as (_ & line & Hin & Hsep).
    now destruct (Hnone line Hin).
Qed.

(** ** The CTE composer *)

Lemma generate_query_filtered_unknown df t fields self :
  table_data df t = [] ->
  generate_query df t (Some fields) self = (self, Ok None).
Proof.
  intros Htd. rewrite generate_query_unknown by auto.
  destruct (get t (_queries self)); reflexivity.
Qed.

(** A generated query is never the empty string. *)
Lemma generate_query_nonempty df t f self first rest q :
  table_data df t = first :: rest ->
  (f = None -> get t (_queries self) = None) ->
  snd (generate_query df t f self) = Ok (Some q) ->
  exists a q', q = String a q'.
Proof.
  intros Htd Hq.
  destruct (@generation_runs _ t f _ _ Htd) as (es & r & Hruns & _).
  rewrite (@generate_query_known _ _ _ _ _ _ _ Htd Hruns).
  assert (Hfin : forall s, snd (finish t f (gk_table first) r s) = Ok (Some q) ->
                           exists a q', q = String a q').
  { intros s. destruct r as [l|e]; simpl; [|discriminate].
    rewrite assemble_join_lines. intros [= <-]. simpl. eauto. }
  destruct f as [fields|].
  - destruct (get t (_queries self)); apply Hfin.
  - rewrite Hq by auto. apply Hfin.
Qed.

Lemma cte_items_step df t fields rest c self :
  cte_items df ((t, fields) :: rest) c self
  = match generate_query df t (Some fields) self with
    | (self', Ok None) => cte_items df rest c self'
    | (self', Ok (Some EmptyString)) => cte_items df rest c self'
    | (self', Ok (Some query)) =>
        cte_items df rest
          {| cte_parts := cte_parts c ++ [cte_part_of (t, fields, query)];
             select_fields := select_fields c ++ cte_fields_of (t, fields, query);
             first_cte := match first_cte c with
                          | None => Some (cte_name_of (t, fields, query))
                          | Some name => Some name
                          end |} self'
    | (self', Raise e) => (self', Raise e)
    end%list.
Proof.
  cbn [cte_items]. unfold bind at 1.
  destruct (generate_query df t (Some fields) self) as [self' [[[|a q]|]|e]];
    reflexivity.
Qed.

(** X4: [generate_cte] never writes the query cache, whether it returns or
    raises: it generates under a filter only. *)
Theorem X4_generate_cte_keeps_the_cache df metadata self :
  _queries (fst (generate_cte df metadata self)) = _queries self.
Proof.
  assert (H : forall items c s,
             _queries (fst (cte_items df items c s)) = _queries s).
  { induction items as [|[t fields] rest IH]; intros c s; [reflexivity|].
    rewrite cte_items_step.
    pose proof (generate_query_filtered_queries df t fields s) as Hq.
    destruct (generate_query df t (Some fields) s) as [s' [[[|a q]|]|e]];
      simpl in Hq; rewrite ?IH; auto. }
  unfold generate_cte, bind. specialize (H metadata
    {| cte_parts := []; select_fields := []; first_cte := None |} self).
  destruct (cte_items df metadata _ self) as [s' [c|e]]; simpl in *; auto.
  destruct (cte_parts c); auto.
Qed.

Lemma cte_items_skip_unknown df items :
  forall c self,
    cte_items df items c self
    = cte_items df (filter (fun item => is_known df (fst item)) items) c self.
Proof.
  induction items as [|[t fields] rest IH]; intros c self; [reflexivity|].
  cbn [filter fst]. unfold is_known at 1.
  destruct (table_data df t) as [|first more] eqn:Htd.
  - rewrite cte_items_step, generate_query_filtered_unknown by auto. apply IH.
  - rewrite !cte_items_step.
    destruct (generate_query df t (Some fields) self) as [s' [[[|a q]|]|e]];
      auto.
Qed.


(** The text a generation under a filter returns depends on the instance
    through the JOIN dictionary of its table only. *)
Lemma generate_query_filtered_result df t fields s s' :
  get t (_join_info s) = get t (_join_info s') ->
  snd (generate_query df t (Some fields) s)
  = snd (generate_query df t (Some fields) s').
Proof.
  intros Hj. destruct (table_data df t) as [|first rest] eqn:Htd.
  - now rewrite !generate_query_filtered_unknown.
  - destruct (@generation_runs _ t (Some fields) _ _ Htd) as (es & r & Hruns & _).
    rewrite !(@generate_query_known _ _ _ _ _ _ _ Htd Hruns).
    assert (Hfin : snd (finish t (Some fields) (gk_table first) r
                          (apply_effects t es (fst (init_stores t s))))
                   = snd (finish t (Some fields) (gk_table first) r
                            (apply_effects t es (fst (init_stores t s'))))).
    { destruct r as [l|e]; [|reflexivity]. unfold finish. cbn [snd].
      now rewrite !generation_join_info, Hj. }
    destruct (get t (_queries s)), (get t (_queries s')); exact Hfin.
Qed.

Lemma generate_query_other_joins df t t' f s :
  t <> t' ->
  get t' (_join_info (fst (generate_query df t f s))) = get t' (_join_info s).
Proof.
  intros Hne. pose proof (@generate_query_frame df t t' f s Hne) as H.
  unfold stored in H. congruence.
Qed.

(** What the loop adds for the items it generates, when no table is named
    twice: each query is the one [generate_query] returns for the item on the
    instance [self0] the loop started from. *)
Lemma cte_items_grow df self0 items :
  NoDup (map fst items) ->
  forall c self self' c',
    (forall item, In item items ->
       get (fst item) (_join_info self) = get (fst item) (_join_info self0)) ->
    cte_items df items c self = (self', Ok c') ->
    exists gen,
      map fst gen = filter (fun item => is_known df (fst item)) items
      /\ cte_parts c' = (cte_parts c ++ map cte_part_of gen)%list
      /\ select_fields c' = (select_fields c ++ flat_map cte_fields_of gen)%list
      /\ first_cte c' = match first_cte c, gen with
                        | Some name, _ => Some name
                        | None, g :: _ => Some (cte_name_of g)
                        | None, [] => None
                        end
      /\ Forall (fun g =>
                   snd (generate_query df (fst (fst g)) (Some (snd (fst g))) self0)
                   = Ok (Some (snd g))) gen.
Proof.
  induction items as [|[t fields] rest IH]; intros Hnodup c self self' c' Hinv.
  - intros [= <- <-]. exists []. simpl. rewrite !app_nil_r.
    destruct (first_cte c); auto.
  - cbn [map fst] in Hnodup. inversion Hnodup as [|? ? Hnotin Hrest]; subst.
    assert (Hhead : snd (generate_query df t (Some fields) self)
                    = snd (generate_query df t (Some fields) self0)).
    { apply generate_query_filtered_result. apply (Hinv (t, fields)). simpl; auto. }
    assert (Hnext : forall item, In item rest ->
               get (fst item)
                 (_join_info (fst (generate_query df t (Some fields) self)))
               = get (fst item) (_join_info self0)).
    { intros item Hitem. rewrite generate_query_other_joins.
      - apply Hinv. simpl; auto.
      - intros ->. apply Hnotin. now apply in_map. }
    rewrite cte_items_step. cbn [filter fst]. unfold is_known at 1.
    destruct (table_data df t) as [|first more] eqn:Htd.
    + rewrite generate_query_filtered_unknown in * by auto. cbn [fst] in Hnext.
      now apply IH.
    + pose proof (@generate_query_nonempty df t (Some fields) self first more)
        as Hne.
      destruct (generate_query df t (Some fields) self) as [s1 [[q|]|e]] eqn:Hg;
        cbn [fst snd] in Hne, Hnext, Hhead.
      * destruct (Hne q Htd) as (a & q' & ->); [discriminate|reflexivity|].
        intros Hloop.
        apply IH in Hloop as (gen & Hgen & Hparts & Hfields & Hfirst & Hall);
          auto.
        exists ((t, fields, String a q') :: gen). simpl in *.
        rewrite Hgen, Hparts, Hfields, Hfirst, <- !app_assoc. simpl.
        repeat split; auto. destruct (first_cte c); reflexivity.
      * exfalso.
        assert (H : snd (generate_query df t (Some fields) self) <> Ok None).
        { destruct (@generation_runs _ t (Some fields) _ _ Htd)
            as (es & r & Hruns & _).
          rewrite (@generate_query_known _ _ _ _ _ _ _ Htd Hruns).
          destruct (get t (_queries self)), r; discriminate. }
        rewrite Hg in H. now apply H.
      * discriminate.
Qed.

(** X6: when [generate_cte] returns and some table of [metadata], which names
    no table twice, is known, the text is WITH, one CTE per known table of
    [metadata] in its order, then the outer SELECT of every requested field
    of every such table, qualified by its CTE name, and FROM the first CTE
    alone.  Each CTE is the table name with its dots replaced by underscores,
    AS, and between parentheses on lines of their own the query that
    [generate_query] returns for the table and its requested fields on the
    instance as it was before the call. *)
Theorem X6_generate_cte_shape df metadata self self' sql :
  NoDup (map fst metadata) ->
  generate_cte df metadata self = (self', Ok sql) ->
  (exists item, In item metadata /\ is_known df (fst item) = true) ->
  exists g gen,
    map fst (g :: gen) = filter (fun item => is_known df (fst item)) metadata
    /\ Forall (fun g =>
                 snd (generate_query df (fst (fst g)) (Some (snd (fst g))) self)
                 = Ok (Some (snd g))) (g :: gen)
    /\ sql = "WITH" ++ nl ++ "    "
             ++ join ("," ++ nl ++ "    ")
                  (map (fun g => replace "." "_" (fst (fst g))
                                 ++ " AS (" ++ nl ++ snd g ++ nl ++ ")")
                     (g :: gen))
             ++ nl ++ "SELECT" ++ nl ++ "    "
             ++ join ("," ++ nl ++ "    ")
                  (flat_map (fun g =>
                               map (fun field => replace "." "_" (fst (fst g))
                                                 ++ "." ++ dq ++ field ++ dq)
                                 (snd (fst g)))
                     (g :: gen))
             ++ nl ++ "FROM " ++ replace "." "_" (fst (fst g)).
Proof.
  unfold generate_cte, bind. intros Hnodup H (item & Hin & Hknown).
  destruct (cte_items df metadata _ self) as [s1 [c|e]] eqn:Hloop;
    [|discriminate].
  apply (@cte_items_grow df self metadata Hnodup) in Hloop
    as (gen & Hgen & Hparts & Hfields & Hfirst & Hall); auto.
  simpl in Hparts, Hfields, Hfirst.
  destruct gen as [|g gen].
  - exfalso. simpl in Hgen.
    assert (In item (filter (fun item => is_known df (fst item)) metadata))
      as Hf by (apply filter_In; auto).
    rewrite <- Hgen in Hf. destruct Hf.
  - exists g, gen. rewrite Hparts, Hfields, Hfirst in H. simpl in H.
    injection H as _ <-. repeat split; auto.
Qed.

Lemma X6_generate_cte_shape_witness :
  exists g gen,
    map fst (g :: gen)
    = filter (fun item => is_known df_two (fst item))
        [("No.Such", ["x"]); ("Orders", ["Date"; "Customer"])]
    /\ Forall (fun g =>
                 snd (generate_query df_two (fst (fst g)) (Some (snd (fst g)))
                        new_generator)
                 = Ok (Some (snd g))) (g :: gen)
    /\ match snd (generate_cte df_two
                    [("No.Such", ["x"]); ("Orders", ["Date"; "Customer"])]
                    new_generator) with
       | Ok sql => sql
       | Raise _ => EmptyString
       end
       = "WITH" ++ nl ++ "    "
         ++ join ("," ++ nl ++ "    ")
              (map (fun g => replace "." "_" (fst (fst g))
                             ++ " AS (" ++ nl ++ snd g ++ nl ++ ")")
                 (g :: gen))
         ++ nl ++ "SELECT" ++ nl ++ "    "
         ++ join ("," ++ nl ++ "    ")
              (flat_map (fun g =>
                           map (fun field => replace "." "_" (fst (fst g))
                                             ++ "." ++ dq ++ field ++ dq)
                             (snd (fst g)))
                 (g :: gen))
         ++ nl ++ "FROM " ++ replace "." "_" (fst (fst g)).
Proof.
  eapply (@X6_generate_cte_shape df_two
            [("No.Such", ["x"]); ("Orders", ["Date"; "Customer"])]
            new_generator).
  - repeat constructor; simpl; intuition discriminate.
  - vm_compute. reflexivity.
  - exists ("Orders", ["Date"; "Customer"]). split; [simpl; auto|reflexivity].
Defined.

(** ** Effects and results together *)

Lemma alias_ops_app es es' :
  alias_ops (es ++ es') = (alias_ops es ++ alias_ops es')%list.
Proof.
  induction es as [|[]]; simpl; auto. now rewrite IHes.
Qed.

Section RulesFx.
Context {A B : Type} (t : string).

Lemma yields_fx_ret (a : A) (P : list effect -> result A -> Prop) :
  P [] (Ok a) -> yields_fx t (ret a) P.
Proof. exists [], (Ok a). split; auto. now intros self _. Qed.

Lemma yields_fx_raise e (P : list effect -> result A -> Prop) :
  P [] (Raise e) -> yields_fx t (raise e) P.
Proof. exists [], (Raise e). split; auto. now intros self _. Qed.

Lemma yields_fx_bind (m : M A) (k : A -> M B)
    (P : list effect -> result A -> Prop)
    (Q : list effect -> result B -> Prop) :
  yields_fx t m P ->
  (forall es a, P es (Ok a) ->
                yields_fx t (k a) (fun es' r => Q (es ++ es')%list r)) ->
  (forall es e, P es (Raise e) -> Q es (Raise e)) ->
  yields_fx t (bind m k) Q.
Proof.
  intros (es & r & Hm & HP) Hk He. destruct r as [a|e].
  - destruct (Hk es a HP) as (es' & r' & Hk' & HQ).
    exists (es ++ es')%list, r'. split; auto. eapply runs_bind_ok; eauto.
  - exists es, (Raise e). split; auto. now apply runs_bind_raise.
Qed.

Lemma yields_fx_weaken (m : M A) (P Q : list effect -> result A -> Prop) :
  yields_fx t m P -> (forall es r, P es r -> Q es r) -> yields_fx t m Q.
Proof. intros (es & r & Hm & HP) H. exists es, r. auto. Qed.

Lemma yields_fx_lift (r : result A) :
  yields_fx t (lift r) (fun es r' => es = [] /\ r' = r).
Proof. exists [], r. split; auto. now intros self _. Qed.

Lemma yields_fx_getitem (k : cell) (d : dict cell A) :
  yields_fx t (getitem k d)
    (fun es r => es = [] /\ r = match get k d with
                                | Some v => Ok v
                                | None => Raise (KeyError k)
                                end).
Proof.
  unfold getitem. destruct (get k d).
  - now apply yields_fx_ret.
  - now apply yields_fx_raise.
Qed.
End RulesFx.

Lemma yields_fx_aliases_setitem t alias expr :
  yields_fx t (_aliases_setitem t alias expr)
    (fun es r => es = [SetAlias alias expr] /\ r = Ok tt).
Proof.
  exists [SetAlias alias expr], (Ok tt). split; auto.
  intros self Hs. now apply aliases_setitem_effect.
Qed.

Lemma yields_fx_add_join_info t alias join_condition :
  yields_fx t (_add_join_info t alias join_condition)
    (fun es r => es = [AddJoin alias join_condition] /\ r = Ok tt).
Proof.
  exists [AddJoin alias join_condition], (Ok tt). split; auto.
  now intros self Hs.
Qed.

Lemma render_parts expr name :
  expr ++ " AS " ++ dq ++ name ++ dq = render (name, expr).
Proof. reflexivity. Qed.

Lemma regular_field_fx row t ja :
  yields_fx t (_process_regular_field row t ja)
    (fun es r =>
       forall s, r = Ok s ->
         exists a,
           get (Some (gk_table row)) ja = Some a
           /\ es = [SetAlias (field_name row) (a ++ "." ++ show (gk_field row))]
           /\ s = render (field_name row, a ++ "." ++ show (gk_field row))).
Proof.
  unfold _process_regular_field.
  eapply yields_fx_bind; [apply yields_fx_getitem| |].
  - intros es a [-> Ha].
    eapply yields_fx_bind; [apply yields_fx_aliases_setitem| |].
    + intros es' [] [-> _]. apply yields_fx_ret.
      intros s [= <-]. exists a. repeat split.
      * destruct (get (Some (gk_table row)) ja); congruence.
      * unfold render. simpl. now rewrite !append_assoc.
    + intros es' e [_ [=]].
  - intros es e _ s [=].
Qed.

Lemma reference_field_fx row t j n main :
  yields_fx t (_process_reference_field row t j n main)
    (fun es r =>
       forall parts j', r = Ok (parts, j') ->
         (exists category suffix a a',
             _get_field_type_info (field_type row) = Ok (category, suffix)
             /\ get (Some (gk_table row)) (join_aliases j) = Some a
             /\ alias_ops es
                = [(field_name row ++ "_ID", a ++ "." ++ show (gk_field row));
                   (field_name row, a' ++ "." ++ suffix)])
         /\ parts = map render (alias_ops es)
         /\ List.length (join_ops es) <= 1
         /\ (external_table row <> Some main ->
             mem (external_table row) (join_aliases j) = true ->
             join_ops es = [])
         /\ (forall k, mem k (join_aliases j') = true ->
               mem k (join_aliases j) = true \/ k = new_key row main)).
Proof.
  unfold _process_reference_field.
  eapply yields_fx_bind; [apply yields_fx_lift| |]; cycle 1.
  { intros es e _ parts j' [=]. }
  intros es [category suffix] [-> Hinfo].
  eapply yields_fx_bind; [apply yields_fx_getitem| |]; cycle 1.
  { intros es e _ parts j' [=]. }
  intros es a [-> Ha].
  assert (Hget : get (Some (gk_table row)) (join_aliases j) = Some a).
  { destruct (get (Some (gk_table row)) (join_aliases j)); congruence. }
  eapply yields_fx_bind; [apply yields_fx_aliases_setitem| |]; cycle 1.
  { intros es e [_ [=]]. }
  intros es [] [-> _]. unfold new_key.
  destruct (keqb_spec (external_table row) (Some main)) as [Hself|Hother].
  - eapply yields_fx_bind
      with (P := fun es r =>
                   alias_ops es = []
                   /\ List.length (join_ops es) <= 1
                   /\ forall j', r = Ok j' ->
                        forall k, mem k (join_aliases j') = true ->
                          mem k (join_aliases j) = true
                          \/ k = Some (main ++ show (gk_field row))).
    + destruct (negb (existsb _ _)).
      * eapply yields_fx_bind; [apply yields_fx_add_join_info| |].
        -- intros es [] [-> _].
           eapply yields_fx_bind; [apply yields_fx_lift| |].
           ++ intros es key [-> Hkey]. apply yields_fx_ret. simpl.
              repeat split; auto. intros j' [= <-] k. simpl.
              rewrite Hself in Hkey.
              destruct (gk_field row) as [g| |shown]; try discriminate.
              injection Hkey as ->. simpl.
              destruct (keqb_spec (Some (main ++ g)) k) as [<-|Hne]; auto.
              rewrite mem_set_other by auto. auto.
           ++ intros es e [-> _]. simpl. repeat split; auto. discriminate.
        -- intros es e [_ [=]].
      * apply yields_fx_ret. simpl. repeat split; auto.
        intros j' [= <-]. auto.
    + intros es j' (Hal & Hjo & Hkeys).
      eapply yields_fx_bind; [apply yields_fx_aliases_setitem| |].
      * intros es' [] [-> _]. apply yields_fx_ret.
        intros parts j'' [= <- <-].
        rewrite !app_nil_r. cbn [List.app alias_ops join_ops snd].
        rewrite !alias_ops_app, !join_ops_app, Hal.
        cbn [alias_ops join_ops List.app]. rewrite app_nil_r.
        split; [do 4 eexists; split; [symmetry; exact Hinfo|]; split; eauto|].
        split; [unfold render; simpl; now rewrite !append_assoc|].
        repeat split; auto; [congruence|]. now apply Hkeys.
      * intros es' e [_ [=]].
    + intros es e _ parts j' [=].
  - eapply yields_fx_bind
      with (P := fun es r =>
                   alias_ops es = []
                   /\ List.length (join_ops es) <= 1
                   /\ (mem (external_table row) (join_aliases j) = true ->
                       join_ops es = [])
                   /\ forall j', r = Ok j' ->
                        forall k, mem k (join_aliases j') = true ->
                          mem k (join_aliases j) = true
                          \/ k = external_table row).
    + destruct (negb (mem _ _)) eqn:Hmem.
      * apply negb_true_iff in Hmem.
        assert (Hkeys : forall jt k,
                  mem k (join_aliases
                           {| join_aliases :=
                                set (external_table row) ("ext_" ++ of_nat n)
                                    (join_aliases j);
                              join_tracker := jt |}) = true ->
                  mem k (join_aliases j) = true \/ k = external_table row).
        { intros jt k. simpl.
          destruct (keqb_spec (external_table row) k) as [<-|Hne]; auto.
          rewrite mem_set_other by auto. auto. }
        destruct (relation row) as [text| |shown];
          [destruct (negb (existsb _ _))| |destruct (negb (existsb _ _))].
        -- eapply yields_fx_bind; [apply yields_fx_add_join_info| |].
           ++ intros es [] [-> _]. apply yields_fx_ret. simpl.
              repeat split; auto; [congruence|].
              intros j' [= <-]. apply Hkeys.
           ++ intros es e [_ [=]].
        -- apply yields_fx_ret. simpl. repeat split; auto.
           intros j' [= <-]. apply Hkeys.
        -- apply yields_fx_ret. simpl. repeat split; auto.
           intros j' [= <-]. apply Hkeys.
        -- apply yields_fx_raise. simpl. repeat split; auto. discriminate.
        -- apply yields_fx_ret. simpl. repeat split; auto.
           intros j' [= <-]. apply Hkeys.
      * apply yields_fx_ret. simpl. repeat split; auto.
        intros j' [= <-]. auto.
    + intros es j' (Hal & Hjo & Hnone & Hkeys).
      eapply yields_fx_bind; [apply yields_fx_getitem| |].
      * intros es' a' [-> _].
        eapply yields_fx_bind; [apply yields_fx_aliases_setitem| |].
        -- intros es' [] [-> _]. apply yields_fx_ret.
           intros parts j'' [= <- <-].
           rewrite !app_nil_r. cbn [List.app alias_ops join_ops snd].
           rewrite !alias_ops_app, !join_ops_app, Hal.
           cbn [alias_ops join_ops List.app]. rewrite app_nil_r.
           split; [do 4 eexists; split; [symmetry; exact Hinfo|]; split; eauto|].
           split; [unfold render; simpl; now rewrite !append_assoc|].
           repeat split; auto. now apply Hkeys.
        -- intros es' e [_ [=]].
      * intros es' e _ parts j'' [=].
    + intros es e _ parts j' [=].
Qed.

Lemma is_regular_info row info :
  Ok info = _get_field_type_info (field_type row) ->
  is_regular row = (fst info =? "regular").
Proof. unfold is_regular. now intros <-. Qed.

Lemma In_existsb_keqb (k : cell) (known : list cell) :
  In k known -> existsb (keqb k) known = true.
Proof.
  intros H. apply existsb_exists. exists k. split; auto.
  destruct (keqb_spec k k); congruence.
Qed.

Lemma output_names_cons row rows :
  output_names (row :: rows)
  = List.app (if is_regular row then [field_name row]
              else [field_name row ++ "_ID"; field_name row])
      (output_names rows).
Proof. reflexivity. Qed.

Lemma count_references_cons row rows :
  count_references (row :: rows)
  = (if is_regular row then 0 else 1) + count_references rows.
Proof. unfold count_references. simpl. now destruct (is_regular row). Qed.

Lemma process_rows_fx t f main rows :
  forall l known,
    yields_fx t (process_rows t f main rows l)
      (fun es r =>
         forall l', r = Ok l' ->
           select_parts l' = (select_parts l ++ map render (alias_ops es))%list
           /\ (exists groups,
                  Forall2 columns_of (processed f rows) groups
                  /\ alias_ops es = concat groups)
           /\ map fst (alias_ops es) = output_names (processed f rows)
           /\ List.length (join_ops es) <= count_references (processed f rows)
           /\ ((forall k, mem k (join_aliases (shared l)) = true -> In k known) ->
               tables_reachable main known (processed f rows) = true)).
Proof.
  induction rows as [|row rest IH]; intros l known; cbn [process_rows].
  - apply yields_fx_ret. intros l' [= <-]. simpl.
    rewrite app_nil_r. repeat split; auto. exists []. split; auto.
  - unfold processed. cbn [filter]. fold (processed f rest).
    destruct (skipped f row); cbn [negb]; [apply IH|].
    rewrite output_names_cons, count_references_cons.
    cbn [tables_reachable].
    eapply yields_fx_bind; [apply yields_fx_lift| |]; cycle 1.
    { intros es e _ l' [=]. }
    intros es0 info [-> Hinfo]. cbn [List.app].
    rewrite (is_regular_info _ Hinfo).
    destruct (fst info =? "regular") eqn:Hreg.
    + eapply yields_fx_bind; [apply regular_field_fx| |].
      * intros es s Hs. destruct (Hs s eq_refl) as (a & Ha & -> & ->).
        eapply yields_fx_weaken; [apply (IH _ known)|].
        cbv beta. cbn [select_parts shared].
        intros es' r Hr l' ->.
        destruct (Hr l' eq_refl) as (Hp & (groups & Hg & Hcat) & Hn & Hj & Hreach).
        cbn [List.app alias_ops join_ops map fst].
        rewrite Hp, Hn, <- app_assoc. cbn [List.app].
        repeat split; auto.
        -- exists ([(field_name row, a ++ "." ++ show (gk_field row))] :: groups).
           split; [|simpl; now rewrite Hcat].
           constructor; auto. unfold columns_of. rewrite <- Hinfo.
           destruct info as [category suffix]. cbn [fst] in Hreg.
           rewrite Hreg. eauto.
        -- intros Hknown. rewrite In_existsb_keqb by (apply Hknown; unfold mem; now rewrite Ha).
           now apply Hreach.
      * intros es e _ l' [=].
    + eapply yields_fx_bind; [apply reference_field_fx| |].
      * intros es [parts j'] Hs.
        destruct (Hs parts j' eq_refl)
          as ((category & suffix & a & a' & Hi & Ha & Hal) & Hparts & Hjoins & _ & Hkeys).
        eapply yields_fx_weaken; [apply (IH _ (new_key row main :: known))|].
        cbv beta. cbn [select_parts shared].
        intros es' r Hr l' ->.
        destruct (Hr l' eq_refl) as (Hp & (groups & Hg & Hcat) & Hn & Hj & Hreach).
        rewrite alias_ops_app, join_ops_app, !map_app, Hn, Hp, Hparts, length_app.
        rewrite <- app_assoc. rewrite Hal. cbn [map fst List.app].
        repeat split; auto.
        -- exists ([(field_name row ++ "_ID", a ++ "." ++ show (gk_field row));
                    (field_name row, a' ++ "." ++ suffix)] :: groups).
           split; [|simpl; now rewrite Hcat].
           constructor; auto. unfold columns_of. rewrite Hi.
           rewrite <- Hinfo in Hi. injection Hi as Hi. subst info.
           cbn [fst] in Hreg. rewrite Hreg. eauto.
        -- apply Nat.add_le_mono; auto.
        -- intros Hknown. rewrite In_existsb_keqb by (apply Hknown; unfold mem; now rewrite Ha).
           cbn [andb]. apply Hreach.
           intros k Hk. destruct (Hkeys k Hk) as [Hold| ->].
           ++ right. now apply Hknown.
           ++ left. reflexivity.
      * intros es e _ l' [=].
Qed.

Lemma apply_effect_aliases t e self d :
  get t (_aliases self) = Some d ->
  get t (_aliases (apply_effect t e self)) = Some (set_all (alias_ops [e]) d).
Proof.
  intros Hd. destruct e; simpl; auto.
  unfold _aliases_setitem, bind, read. rewrite Hd. simpl. apply get_set_same.
Qed.

Lemma apply_effects_aliases t es self d :
  get t (_aliases self) = Some d ->
  get t (_aliases (apply_effects t es self)) = Some (set_all (alias_ops es) d).
Proof.
  revert self d. induction es as [|e es IH]; simpl; auto.
  intros self d Hd.
  rewrite (IH _ _ (@apply_effect_aliases t e self d Hd)).
  destruct e; reflexivity.
Qed.

Lemma init_stores_aliases t self :
  get t (_aliases (fst (init_stores t self)))
  = Some match get t (_aliases self) with Some d => d | None => [] end.
Proof.
  simpl. unfold mem.
  destruct (get t (_aliases self)) eqn:E; auto. apply get_set_same.
Qed.

Lemma length_set {K V} `{Key K} (k : K) (v : V) (d : dict K V) :
  List.length d <= List.length (set k v d) <= S (List.length d).
Proof.
  induction d as [|[k' v'] d IH]; simpl; [lia|].
  destruct IH as [IH1 IH2]. destruct (keqb k' k); simpl; split; auto with arith.
Qed.

Lemma length_set_all {K V} `{Key K} (ops : list (K * V)) (d : dict K V) :
  List.length d <= List.length (set_all ops d) <= List.length d + List.length ops.
Proof.
  revert d. induction ops as [|[k v] ops IH]; intros d; simpl; [lia|].
  destruct (IH (set k v d)) as [IH1 IH2]. destruct (length_set k v d) as [L1 L2].
  unfold set_all in IH1, IH2. split.
  - eapply Nat.le_trans; eauto.
  - eapply Nat.le_trans; [apply IH2|]. rewrite <- Nat.add_succ_comm.
    now apply Nat.add_le_mono_r.
Qed.

(** A generation that is not answered from the cache, told by the columns it
    selects and what it leaves in the two registries. *)
Lemma generation_outcome df t f self first rest q :
  table_data df t = first :: rest ->
  (f = None -> get t (_queries self) = None) ->
  snd (generate_query df t f self) = Ok (Some q) ->
  exists columns join_ops,
    map fst columns = output_names (processed f (first :: rest))
    /\ List.length join_ops <= count_references (processed f (first :: rest))
    /\ get t (_aliases (fst (generate_query df t f self)))
       = Some (set_all columns
                 match get t (_aliases self) with Some d => d | None => [] end)
    /\ get t (_join_info (fst (generate_query df t f self)))
       = Some (set_all join_ops
                 match get t (_join_info self) with Some d => d | None => [] end)
    /\ q = assemble (map render columns) (gk_table first)
             (values (set_all join_ops
                        match get t (_join_info self) with
                        | Some d => d
                        | None => []
                        end))
    /\ (exists groups,
           Forall2 columns_of (processed f (first :: rest)) groups
           /\ columns = concat groups)
    /\ tables_reachable (gk_table first) [Some (gk_table first)]
         (processed f (first :: rest)) = true.
Proof.
  intros Htd Hq.
  destruct (process_rows_fx t f (gk_table first) (first :: rest)
              (first_loop (gk_table first)) [Some (gk_table first)])
    as (es & r & Hruns & Hpost).
  rewrite (@generate_query_known _ _ _ _ _ _ _ Htd Hruns).
  assert (Hfin : snd (finish t f (gk_table first) r
                        (apply_effects t es (fst (init_stores t self))))
                 = Ok (Some q) ->
                 exists columns join_ops,
                   map fst columns = output_names (processed f (first :: rest))
                   /\ List.length join_ops
                      <= count_references (processed f (first :: rest))
                   /\ get t (_aliases
                               (fst (finish t f (gk_table first) r
                                       (apply_effects t es
                                          (fst (init_stores t self))))))
                      = Some (set_all columns
                                match get t (_aliases self) with
                                | Some d => d
                                | None => []
                                end)
                   /\ get t (_join_info
                               (fst (finish t f (gk_table first) r
                                       (apply_effects t es
                                          (fst (init_stores t self))))))
                      = Some (set_all join_ops
                                match get t (_join_info self) with
                                | Some d => d
                                | None => []
                                end)
                   /\ q = assemble (map render columns) (gk_table first)
                            (values (set_all join_ops
                                       match get t (_join_info self) with
                                       | Some d => d
                                       | None => []
                                       end))
                   /\ (exists groups,
                          Forall2 columns_of (processed f (first :: rest)) groups
                          /\ columns = concat groups)
                   /\ tables_reachable (gk_table first) [Some (gk_table first)]
                        (processed f (first :: rest)) = true).
  { destruct r as [l|e]; [|discriminate].
    destruct (Hpost l eq_refl) as (Hparts & Hgroups & Hnames & Hjoins & Hreach).
    simpl in Hparts.
    pose proof (@apply_effects_aliases t es _ _ (init_stores_aliases t self))
      as Ha.
    pose proof (generation_join_info t es self) as Hj.
    unfold finish. rewrite Hj, Hparts. intros [= <-].
    exists (alias_ops es), (join_ops es).
    assert (Hkeys : forall k : cell,
               mem k (join_aliases (shared (first_loop (gk_table first)))) = true ->
               In k [Some (gk_table first)]).
    { intros k. unfold mem. simpl.
      destruct k as [k|]; [|discriminate].
      destruct (String.eqb_spec (gk_table first) k); [subst; auto|discriminate]. }
    repeat split; auto; destruct f; simpl; auto. }
  destruct f as [fields|].
  - destruct (get t (_queries self)); apply Hfin.
  - rewrite Hq by auto. apply Hfin.
Qed.

(** ** The cache *)




(** ** Physical tables the generation cannot resolve *)

Lemma columns_of_typed rows :
  forall groups,
    Forall2 columns_of rows groups ->
    forallb (fun row => negb (is_number (field_type row))) rows = true.
Proof.
  induction rows as [|row rows IH]; intros groups H;
    inversion H as [|? group ? groups' Hrow Hrows]; subst; [reflexivity|].
  cbn [forallb]. rewrite (IH _ Hrows), andb_true_r.
  unfold columns_of in Hrow.
  destruct (field_type row); simpl in *; auto; contradiction.
Qed.




(** ** The columns and the registries of a generation *)



Lemma get_query_aliases_recorded df t self d :
  get t (_aliases self) = Some d ->
  get_query_aliases df t self = (self, Ok d).
Proof.
  intros H. unfold get_query_aliases, bind, read, mem. rewrite H. simpl.
  now rewrite H.
Qed.

Lemma get_table_join_info_recorded df t self d :
  get t (_join_info self) = Some d ->
  get_table_join_info df t self = (self, Ok d).
Proof.
  intros H. unfold get_table_join_info, bind, read, mem. rewrite H. simpl.
  now rewrite H.
Qed.

(** X8: right after a generation that was not answered from the cache, the
    two metadata getters agree with the query it returned, and generate
    nothing: the text is SELECT, the columns, FROM the main table as main and
    the JOIN lines, where [get_table_join_info] returns the dictionary whose
    values are these JOIN lines, in their order, and [get_query_aliases]
    returns the earlier alias dictionary of the table with each of these
    columns assigned, expression under output alias, in their order. *)
Theorem X8_metadata_agrees_with_the_query df t f self first rest q :
  table_data df t = first :: rest ->
  (f = None -> get t (_queries self) = None) ->
  snd (generate_query df t f self) = Ok (Some q) ->
  let self' := fst (generate_query df t f self) in
  exists columns join_info,
    q = "SELECT" ++ nl ++ "    "
        ++ join ("," ++ nl ++ "    ") (map render columns)
        ++ nl ++ "FROM " ++ gk_table first ++ " main"
        ++ join_lines (values join_info)
    /\ get_table_join_info df t self' = (self', Ok join_info)
    /\ get_query_aliases df t self'
       = (self', Ok (set_all columns
                       match get t (_aliases self) with
                       | Some d => d
                       | None => []
                       end)).
Proof.
  intros Htd Hq Hres self'.
  destruct (@generation_outcome df t f self first rest q Htd Hq Hres)
    as (columns & jops & _ & _ & Ha & Hj & -> & _).
  exists columns. eexists. split; [apply assemble_join_lines|].
  split.
  - now apply get_table_join_info_recorded.
  - now apply get_query_aliases_recorded.
Qed.

Lemma X8_metadata_agrees_with_the_query_witness :
  let self' := fst (generate_query df_two "Orders" None new_generator) in
  exists columns join_info,
    q_two = "SELECT" ++ nl ++ "    "
            ++ join ("," ++ nl ++ "    ") (map render columns)
            ++ nl ++ "FROM " ++ gk_table row_date ++ " main"
            ++ join_lines (values join_info)
    /\ get_table_join_info df_two "Orders" self' = (self', Ok join_info)
    /\ get_query_aliases df_two "Orders" self'
       = (self', Ok (set_all columns
                       match get "Orders" (_aliases new_generator) with
                       | Some d => d
                       | None => []
                       end)).
Proof.
  apply (@X8_metadata_agrees_with_the_query df_two "Orders" None new_generator
           row_date [row_customer] q_two); reflexivity.
Defined.

(** X9: a generation that is not answered from the cache keeps every JOIN
    clause the table had, in place, and adds at most one for each
    reference-like row the filter keeps; with no such row the JOIN clauses of
    the table are the same before and after. *)
Theorem X9_joins_added_by_a_generation df t f self first rest q :
  table_data df t = first :: rest ->
  (f = None -> get t (_queries self) = None) ->
  snd (generate_query df t f self) = Ok (Some q) ->
  let before :=
    match get t (_join_info self) with Some d => d | None => [] end in
  exists after,
    get t (_join_info (fst (generate_query df t f self))) = Some after
    /\ List.length before <= List.length after
       <= List.length before + count_references (processed f (table_data df t))
    /\ (forall alias, mem alias before = true -> mem alias after = true)
    /\ (count_references (processed f (table_data df t)) = 0 -> after = before).
Proof.
  intros Htd Hq Hres before.
  destruct (@generation_outcome df t f self first rest q Htd Hq Hres)
    as (columns & jops & _ & Hlen & _ & Hj & _).
  fold before in Hj. rewrite Htd.
  exists (set_all jops before). split; auto.
  destruct (length_set_all jops before) as [L1 L2].
  repeat split; auto.
  - eapply Nat.le_trans; [apply L2|]. now apply Nat.add_le_mono_l.
  - intros alias. apply mem_set_all.
  - intros Hzero. rewrite Hzero in Hlen.
    destruct jops; [reflexivity|]. simpl in Hlen. inversion Hlen.
Qed.

Lemma X9_joins_added_by_a_generation_witness :
  let before :=
    match get "Orders" (_join_info new_generator) with
    | Some d => d
    | None => []
    end in
  exists after,
    get "Orders" (_join_info (fst (generate_query df_two "Orders" None new_generator)))
    = Some after
    /\ List.length before <= List.length after
       <= List.length before
          + count_references (processed None (table_data df_two "Orders"))
    /\ (forall alias, mem alias before = true -> mem alias after = true)
    /\ (count_references (processed None (table_data df_two "Orders")) = 0 ->
        after = before).
Proof.
  apply (@X9_joins_added_by_a_generation df_two "Orders" None new_generator
           row_date [row_customer] q_two); reflexivity.
Defined.

(** ** Nothing is removed *)

Lemma finish_registries t f main r self :
  _aliases (fst (finish t f main r self)) = _aliases self
  /\ _join_info (fst (finish t f main r self)) = _join_info self.
Proof. destruct r as [l|e], f; simpl; auto. Qed.

(** A generation keeps every alias and JOIN alias recorded for a table. *)
Lemma generate_query_keeps_recorded df t t' f self :
  (forall d, get t (_aliases self) = Some d ->
     exists d', get t (_aliases (fst (generate_query df t' f self))) = Some d'
                /\ forall alias, mem alias d = true -> mem alias d' = true)
  /\ (forall d, get t (_join_info self) = Some d ->
        exists d', get t (_join_info (fst (generate_query df t' f self))) = Some d'
                   /\ forall alias, mem alias d = true -> mem alias d' = true).
Proof.
  destruct (String.eqb_spec t' t) as [->|Hne].
  - destruct (table_data df t) as [|first rest] eqn:Htd.
    + rewrite generate_query_unknown_state by auto. split; eauto.
    + destruct (@generation_runs _ t f _ _ Htd) as (es & r & Hruns & _).
      rewrite (@generate_query_known _ _ _ _ _ _ _ Htd Hruns).
      assert (Hfin :
                (forall d, get t (_aliases self) = Some d ->
                   exists d',
                     get t (_aliases
                              (fst (finish t f (gk_table first) r
                                      (apply_effects t es
                                         (fst (init_stores t self))))))
                     = Some d'
                     /\ forall alias, mem alias d = true -> mem alias d' = true)
                /\ (forall d, get t (_join_info self) = Some d ->
                      exists d',
                        get t (_join_info
                                 (fst (finish t f (gk_table first) r
                                         (apply_effects t es
                                            (fst (init_stores t self))))))
                        = Some d'
                        /\ forall alias, mem alias d = true -> mem alias d' = true)).
      { destruct (finish_registries t f (gk_table first) r
                    (apply_effects t es (fst (init_stores t self)))) as [-> ->].
        split; intros d Hd.
        - rewrite (@apply_effects_aliases t es _ _ (init_stores_aliases t self)).
          rewrite Hd. eexists. split; [reflexivity|].
          intros alias. apply mem_set_all.
        - rewrite generation_join_info, Hd. eexists. split; [reflexivity|].
          intros alias. apply mem_set_all. }
      destruct (get t (_queries self)), f; auto. split; eauto.
  - pose proof (@generate_query_frame df t' t f self Hne) as H.
    unfold stored in H. injection H as _ Ha Hj. rewrite Ha, Hj.
    split; eauto.
Qed.

(** X10: no call removes anything from the instance: after any sequence of
    calls a cached query of a table is the same text, and every output alias
    and every JOIN alias recorded for a table is still recorded for it. *)
Theorem X10_calls_remove_nothing df cs self t :
  (forall q, get t (_queries self) = Some q ->
             get t (_queries (run_calls df cs self)) = Some q)
  /\ (forall d, get t (_aliases self) = Some d ->
        exists d', get t (_aliases (run_calls df cs self)) = Some d'
                   /\ forall alias, mem alias d = true -> mem alias d' = true)
  /\ (forall d, get t (_join_info self) = Some d ->
        exists d', get t (_join_info (run_calls df cs self)) = Some d'
                   /\ forall alias, mem alias d = true -> mem alias d' = true).
Proof.
  split; [intros q; apply run_calls_keep_cached|].
  split; intros d Hd.
  - apply (@run_calls_invariant df (fun _ => True)
             (fun s => exists d', get t (_aliases s) = Some d'
                                  /\ forall alias, mem alias d = true ->
                                                   mem alias d' = true));
      [|now apply Forall_forall|eauto].
    intros c s _ (d1 & Hd1 & Hkeep).
    destruct (run_call_cases df c s) as [->| ->]; eauto.
    destruct (generate_query_keeps_recorded df t (call_table c) (call_filter c) s)
      as [Ha _].
    destruct (Ha d1 Hd1) as (d2 & Hd2 & Hkeep2). eauto.
  - apply (@run_calls_invariant df (fun _ => True)
             (fun s => exists d', get t (_join_info s) = Some d'
                                  /\ forall alias, mem alias d = true ->
                                                   mem alias d' = true));
      [|now apply Forall_forall|eauto].
    intros c s _ (d1 & Hd1 & Hkeep).
    destruct (run_call_cases df c s) as [->| ->]; eauto.
    destruct (generate_query_keeps_recorded df t (call_table c) (call_filter c) s)
      as [_ Hj].
    destruct (Hj d1 Hd1) as (d2 & Hd2 & Hkeep2). eauto.
Qed.

(** ** The first fetch of the aliases, and a fetch after a failure *)

Lemma mem_set_all_key {K V} `{Key K} (ops : list (K * V)) (k : K) (d : dict K V) :
  In k (map fst ops) -> mem k (set_all ops d) = true.
Proof.
  revert d. induction ops as [|[k0 v0] ops IH]; simpl; [tauto|].
  intros d [->|Hin].
  - apply mem_set_all, mem_set_same.
  - now apply IH.
Qed.

Lemma processed_all rows : processed None rows = rows.
Proof.
  unfold processed. induction rows as [|row rows IH]; auto.
  cbn [filter skipped negb]. now f_equal.
Qed.

Lemma get_query_aliases_generates df t self self' o d :
  get t (_aliases self) = None ->
  generate_query df t None self = (self', Ok o) ->
  get t (_aliases self') = Some d ->
  get_query_aliases df t self = (self', Ok d).
Proof.
  intros Ha Hg Hd. unfold get_query_aliases, bind, read, mem.
  rewrite Ha. cbn [negb fst snd]. rewrite Hg. cbn [fst snd].
  unfold ret. now rewrite Hd.
Qed.



Lemma classifier_raises v e :
  _get_field_type_info v = Raise e -> e = AttributeError /\ is_number v = true.
Proof.
  destruct v as [tag| |shown]; simpl; [|discriminate|intros [= <-]; auto].
  repeat match goal with
         | |- context [if ?b then _ else _] => destruct b
         end; discriminate.
Qed.

Lemma add_raises x v e :
  add (Some x) v = Raise e -> e = TypeError /\ is_text v = false.
Proof. destruct v; simpl; [discriminate| |]; intros [= <-]; auto. Qed.

Lemma regular_field_raises row t ja main :
  yields t (_process_regular_field row t ja)
    (fun r => forall e, r = Raise e -> fails_at row main e).
Proof.
  unfold _process_regular_field.
  eapply yields_bind; [apply yields_getitem| |].
  - intros a _.
    eapply yields_bind with (P := fun r => r = Ok tt).
    + now apply yields_aliases_setitem.
    + intros _ _. apply yields_ret. discriminate.
    + discriminate.
  - intros e He e' [= <-]. cbv beta zeta in He. left.
    destruct (get (Some (gk_table row)) ja); congruence.
Qed.

Lemma reference_field_raises row t j n main :
  yields t (_process_reference_field row t j n main)
    (fun r => forall e, r = Raise e -> fails_at row main e).
Proof.
  unfold _process_reference_field.
  eapply yields_bind; [apply yields_lift| |]; cycle 1.
  { cbv beta. intros e He e' [= <-]. right. left.
    symmetry in He. apply classifier_raises in He as [-> Hn]. auto. }
  intros info _.
  eapply yields_bind; [apply yields_getitem| |]; cycle 1.
  { intros e He e' [= <-]. cbv beta zeta in He. left.
    destruct (get (Some (gk_table row)) (join_aliases j)); congruence. }
  intros a _.
  eapply yields_bind with (P := fun r => r = Ok tt);
    [now apply yields_aliases_setitem| |discriminate].
  intros _ _.
  destruct (keqb_spec (external_table row) (Some main)) as [Hself|Hother].
  - eapply yields_bind
      with (P := fun r => forall e, r = Raise e -> fails_at row main e).
    + destruct (negb (existsb _ _)).
      * eapply yields_bind with (P := fun r => r = Ok tt);
          [now apply yields_add_join_info| |discriminate].
        intros _ _.
        eapply yields_bind; [apply yields_lift| |].
        -- intros key _. apply yields_ret. discriminate.
        -- cbv beta. intros e He e' [= <-]. right. right.
           rewrite Hself in He. symmetry in He.
           apply add_raises in He as [-> Hg]. auto.
      * apply yields_ret. discriminate.
    + intros j' _.
      eapply yields_bind with (P := fun r => r = Ok tt);
        [now apply yields_aliases_setitem| |discriminate].
      intros _ _. apply yields_ret. discriminate.
    + intros e He e' [= <-]. now apply He.
  - eapply yields_bind
      with (P := fun r =>
                   (forall e, r = Raise e -> fails_at row main e)
                   /\ forall j', r = Ok j' ->
                        mem (external_table row) (join_aliases j') = true).
    + destruct (negb (mem _ _)) eqn:Hmem.
      * destruct (relation row) as [text| |shown] eqn:Hrel;
          [destruct (negb (existsb _ _))| |destruct (negb (existsb _ _))].
        -- eapply yields_bind with (P := fun r => r = Ok tt);
             [now apply yields_add_join_info| |discriminate].
           intros _ _. apply yields_ret. split; [discriminate|].
           intros j' [= <-]. simpl. apply mem_set_same.
        -- apply yields_ret. split; [discriminate|].
           intros j' [= <-]. simpl. apply mem_set_same.
        -- apply yields_ret. split; [discriminate|].
           intros j' [= <-]. simpl. apply mem_set_same.
        -- apply yields_raise. split; [|discriminate].
           intros e [= <-]. right. left. rewrite Hrel. auto.
        -- apply yields_ret. split; [discriminate|].
           intros j' [= <-]. simpl. apply mem_set_same.
      * apply yields_ret. split; [discriminate|].
        intros j' [= <-]. now apply negb_false_iff in Hmem.
    + intros j' [_ Hm']. specialize (Hm' j' eq_refl).
      eapply yields_bind; [apply yields_getitem| |].
      * intros a' _.
        eapply yields_bind with (P := fun r => r = Ok tt);
          [now apply yields_aliases_setitem| |discriminate].
        intros _ _. apply yields_ret. discriminate.
      * intros e He. unfold mem in Hm'. cbv beta zeta in He.
        destruct (get (external_table row) (join_aliases j')); discriminate.
    + intros e [He _] e' [= <-]. now apply He.
Qed.

Lemma process_rows_raises t f main rows :
  forall l,
    yields t (process_rows t f main rows l)
      (fun r => forall e, r = Raise e ->
                  exists row, In row (processed f rows) /\ fails_at row main e).
Proof.
  induction rows as [|row rest IH]; intros l; cbn [process_rows].
  - apply yields_ret. discriminate.
  - unfold processed. cbn [filter]. fold (processed f rest).
    destruct (skipped f row); cbn [negb]; [apply IH|].
    eapply yields_bind; [apply yields_lift| |].
    + intros info _. destruct (fst info =? "regular").
      * eapply yields_bind; [apply (regular_field_raises row t _ main)| |].
        -- intros s _. eapply yields_weaken; [apply IH|].
           cbv beta. intros r Hr e He.
           destruct (Hr e He) as (row' & Hin & Hfail). exists row'. simpl. auto.
        -- cbv beta. intros e He. intros e' [= <-]. exists row. simpl. auto.
      * eapply yields_bind; [apply reference_field_raises| |].
        -- intros [parts j'] _. eapply yields_weaken; [apply IH|].
           cbv beta. intros r Hr e He.
           destruct (Hr e He) as (row' & Hin & Hfail). exists row'. simpl. auto.
        -- cbv beta. intros e He e' [= <-]. exists row. simpl. auto.
    + cbv beta. intros e He e' [= <-]. exists row. split; [simpl; auto|].
      right. left. symmetry in He. apply classifier_raises in He as [-> Hn]. auto.
Qed.



(** ** The renamer on a column as the generator writes it *)

Lemma rev_onto_app acc s : rev_onto acc s = rev s ++ acc.
Proof.
  unfold rev. revert acc. induction s as [|c s IH]; intros acc; simpl; auto.
  rewrite IH, (IH (String c EmptyString)), append_assoc. reflexivity.
Qed.

Lemma rev_cons c s : rev (String c s) = rev s ++ String c EmptyString.
Proof. unfold rev at 1. simpl. apply rev_onto_app. Qed.

Lemma rev_append a b : rev (a ++ b) = rev b ++ rev a.
Proof.
  induction a as [|c a IH]; simpl.
  - now rewrite append_empty_r.
  - now rewrite !rev_cons, IH, append_assoc.
Qed.

Lemma rev_involutive s : rev (rev s) = s.
Proof.
  induction s as [|c s IH]; auto.
  now rewrite rev_cons, rev_append, IH.
Qed.

Lemma plain_append a b : plain (a ++ b) = plain a && plain b.
Proof.
  induction a as [|c a IH]; simpl; auto. now rewrite IH, andb_assoc.
Qed.

Lemma plain_rev s : plain (rev s) = plain s.
Proof.
  induction s as [|c s IH]; auto.
  rewrite rev_cons, plain_append, IH. simpl.
  now rewrite andb_true_r, andb_comm.
Qed.

(** No whitespace character, read forwards or backwards, starts with a plain
    character. *)
Lemma plain_char_not_space c s :
  plain_char c = true ->
  find (fun w => startswith w (String c s)) whitespace = None.
Proof.
  destruct c as [[] [] [] [] [] [] [] []]; intros H;
    try discriminate H; reflexivity.
Qed.

Lemma plain_char_not_space_rev c s :
  plain_char c = true ->
  find (fun w => startswith w (String c s)) (map rev whitespace) = None.
Proof.
  destruct c as [[] [] [] [] [] [] [] []]; intros H;
    try discriminate H; reflexivity.
Qed.

Lemma lstrip_chars_stops chars fuel s :
  find (fun w => startswith w s) chars = None ->
  lstrip_chars chars fuel s = s.
Proof. intros H. destruct fuel; simpl; auto. now rewrite H. Qed.

Lemma rev_snoc s c : rev (s ++ String c EmptyString) = String c (rev s).
Proof. now rewrite rev_append. Qed.

(** Stripping leaves alone a string that starts and ends with a plain
    character. *)
Lemma strip_plain_ends y c s c' r :
  y = String c s -> rev y = String c' r ->
  plain_char c = true -> plain_char c' = true ->
  strip whitespace y = y.
Proof.
  intros Hy Hr Hc Hc'. unfold strip, rstrip, lstrip.
  rewrite (@lstrip_chars_stops whitespace _ y)
    by (rewrite Hy; now apply plain_char_not_space).
  rewrite (@lstrip_chars_stops (map rev whitespace) _ (rev y))
    by (rewrite Hr; now apply plain_char_not_space_rev).
  apply rev_involutive.
Qed.

Lemma strip_plain s :
  s <> EmptyString -> plain s = true -> strip whitespace s = s.
Proof.
  intros Hne Hs.
  destruct s as [|c s]; [congruence|].
  destruct (rev (String c s)) as [|c' r] eqn:Hr.
  { apply (f_equal rev) in Hr. rewrite rev_involutive in Hr. discriminate. }
  pose proof (plain_rev (String c s)) as Hp. rewrite Hr, Hs in Hp.
  simpl in Hs, Hp. apply andb_prop in Hs as [Hc _].
  apply andb_prop in Hp as [Hc' _].
  eapply strip_plain_ends; eauto.
Qed.

Lemma split_once_plain a b :
  plain a = true -> split_once " AS " (a ++ " AS " ++ b) = Some (a, b).
Proof.
  induction a as [|c a IH]; intros Ha; [reflexivity|].
  simpl in Ha. apply andb_prop in Ha as [Hc Ha]. specialize (IH Ha).
  remember (" AS " ++ b) as sep_b.
  cbn [append split_once startswith].
  destruct (Ascii.eqb_spec " " c) as [<-|_]; [discriminate Hc|].
  cbn [andb]. now rewrite IH.
Qed.

Lemma rev_snoc_dq s : rev (s ++ dq) = String (ascii_of_nat 34) (rev s).
Proof. apply rev_snoc. Qed.

Lemma length_snoc s c :
  String.length (s ++ String c EmptyString) = S (String.length s).
Proof. induction s; simpl; congruence. Qed.

Lemma len_spaces_append s : len ("    " ++ s) = 4 + len s.
Proof. reflexivity. Qed.

Lemma rev_render alias expr :
  rev (render (alias, expr))
  = String (ascii_of_nat 34) (rev (expr ++ " AS " ++ dq ++ alias)).
Proof.
  unfold render. cbn [fst snd].
  replace (expr ++ " AS " ++ dq ++ alias ++ dq)
    with ((expr ++ " AS " ++ dq ++ alias) ++ dq)
    by now rewrite !append_assoc.
  apply rev_snoc_dq.
Qed.

(** The line of a column, stripped: the column and its comma. *)
Lemma strip_column_line expr alias (comma : bool) :
  expr <> EmptyString -> plain expr = true ->
  strip whitespace
    ("    " ++ render (alias, expr) ++ (if comma then "," else EmptyString))
  = render (alias, expr) ++ (if comma then "," else EmptyString).
Proof.
  intros Hne Hplain.
  assert (Hfirst : exists c e, render (alias, expr) = String c e
                               /\ plain_char c = true).
  { destruct expr as [|c e]; [congruence|]. simpl in Hplain.
    apply andb_prop in Hplain as [Hc _]. unfold render. cbn [fst snd append].
    eauto. }
  destruct Hfirst as (c & e & He & Hc).
  change (strip whitespace ("    " ++ ?y)) with (strip whitespace y).
  destruct comma.
  - eapply strip_plain_ends with (c := c) (c' := ","%char).
    + rewrite He. reflexivity.
    + apply rev_snoc.
    + auto.
    + reflexivity.
  - rewrite append_empty_r.
    eapply strip_plain_ends with (c := c).
    + apply He.
    + apply rev_render.
    + auto.
    + reflexivity.
Qed.

Lemma rename_field_column upper normalized_rename expr alias (comma : bool) :
  expr <> EmptyString ->
  plain expr = true ->
  contains " AS " (upper (render (alias, expr))) = true ->
  let tail := if comma then "," else EmptyString in
  let new_alias :=
    match get alias normalized_rename with
    | Some v => v
    | None => alias
    end in
  rename_field upper normalized_rename ("    " ++ render (alias, expr) ++ tail)
  = Ok ("    " ++ render (new_alias, expr) ++ tail).
Proof.
  intros Hne Hplain Hupper tail new_alias.
  pose proof (strip_column_line alias comma Hne Hplain) as Hstrip.
  fold tail in Hstrip.
  set (x := render (alias, expr)) in *.
  assert (Hx : x = expr ++ " AS " ++ dq ++ alias ++ dq) by reflexivity.
  pose proof (rev_render alias expr) as Hrevx. fold x in Hrevx.
  assert (Hcomma : endswith "," (x ++ tail) = comma).
  { unfold endswith. destruct comma; subst tail.
    - now rewrite rev_snoc.
    - now rewrite append_empty_r, Hrevx. }
  assert (Hclean : rstrip [","; " "] (x ++ tail) = x).
  { unfold rstrip. destruct comma; subst tail.
    - rewrite rev_snoc, Hrevx, length_snoc.
      change (lstrip_chars (map rev [","; " "]) (S (String.length x))
                (String "," (String (ascii_of_nat 34)
                               (rev (expr ++ " AS " ++ dq ++ alias)))))
        with (lstrip_chars (map rev [","; " "]) (String.length x)
                (String (ascii_of_nat 34) (rev (expr ++ " AS " ++ dq ++ alias)))).
      rewrite lstrip_chars_stops by reflexivity.
      rewrite <- Hrevx. apply rev_involutive.
    - rewrite append_empty_r, Hrevx.
      rewrite lstrip_chars_stops by reflexivity.
      rewrite <- Hrevx. apply rev_involutive. }
  unfold rename_field. rewrite Hstrip, Hcomma, Hclean, Hupper.
  rewrite Hx at 1. rewrite (@split_once_plain expr (dq ++ alias ++ dq) Hplain).
  rewrite (@strip_plain expr Hne Hplain).
  assert (Halias : strip whitespace (dq ++ alias ++ dq) = dq ++ alias ++ dq).
  { eapply strip_plain_ends with (c := ascii_of_nat 34) (c' := ascii_of_nat 34).
    - reflexivity.
    - replace (dq ++ alias ++ dq) with ((dq ++ alias) ++ dq)
        by now rewrite append_assoc.
      apply rev_snoc.
    - reflexivity.
    - reflexivity. }
  rewrite Halias.
  assert (Hstart : startswith dq (dq ++ alias ++ dq) = true) by reflexivity.
  assert (Hend : endswith dq (dq ++ alias ++ dq) = true).
  { unfold endswith.
    replace (dq ++ alias ++ dq) with ((dq ++ alias) ++ dq)
      by now rewrite append_assoc.
    now rewrite rev_snoc_dq. }
  assert (Hinner : inner (dq ++ alias ++ dq) = alias).
  { unfold inner. change (drop 1 (dq ++ alias ++ dq)) with (alias ++ dq).
    rewrite rev_snoc_dq. apply rev_involutive. }
  rewrite Hstart, Hend, Hinner. cbn [andb].
  fold new_alias.
  rewrite len_spaces_append, Nat.add_sub.
  change (spaces 4) with "    ".
  destruct comma; subst tail; unfold render; cbn [fst snd];
    now rewrite ?append_assoc.
Qed.

(** X13: a column written as the generator writes it, four spaces, an
    expression of printable ASCII characters without a space, AS, the alias
    between double quotes and an optional comma, comes out of the renamer
    the same but for the alias, which is its image in the renaming map when
    it is a key of it. *)
Theorem X13_rename_field_generated upper normalized_rename expr alias
    (comma : bool) :
  expr <> EmptyString ->
  plain expr = true ->
  contains " AS " (upper (render (alias, expr))) = true ->
  let tail := if comma then "," else EmptyString in
  let new_alias :=
    match get alias normalized_rename with
    | Some v => v
    | None => alias
    end in
  rename_field upper normalized_rename ("    " ++ render (alias, expr) ++ tail)
  = Ok ("    " ++ render (new_alias, expr) ++ tail).
Proof. apply rename_field_column. Qed.

Lemma X13_rename_field_generated_witness :
  rename_field upper_ascii rename_date
    ("    " ++ render ("Date", "main.Date1") ++ ",")
  = Ok ("    " ++ render ("Day", "main.Date1") ++ ",").
Proof.
  apply (@X13_rename_field_generated upper_ascii rename_date
           "main.Date1" "Date" true).
  - discriminate.
  - reflexivity.
  - reflexivity.
Defined.

(** ** The lines of a generated query *)

Lemma free_of_append c a b : free_of c (a ++ b) = free_of c a && free_of c b.
Proof.
  induction a as [|x a IH]; simpl; auto. now rewrite IH, andb_assoc.
Qed.

Lemma plain_free_of_newline s : plain s = true -> free_of newline s = true.
Proof.
  induction s as [|c s IH]; simpl; auto.
  intros H. apply andb_prop in H as [Hc Hs]. rewrite (IH Hs), andb_true_r.
  destruct (Ascii.eqb_spec c newline) as [->|]; [discriminate Hc|reflexivity].
Qed.

Lemma split_char_free c s : free_of c s = true -> split_char c s = [s].
Proof.
  induction s as [|a s IH]; cbn -[Ascii.eqb]; auto.
  intros H. apply andb_prop in H as [Ha Hs].
  apply negb_true_iff in Ha. now rewrite Ha, (IH Hs).
Qed.

Lemma split_char_app c a b :
  free_of c a = true -> split_char c (a ++ String c b) = a :: split_char c b.
Proof.
  induction a as [|x a IH]; cbn -[Ascii.eqb].
  - intros _. now rewrite Ascii.eqb_refl.
  - intros H. apply andb_prop in H as [Hx Ha].
    apply negb_true_iff in Hx. now rewrite Hx, (IH Ha).
Qed.

Lemma column_text_lines parts rest :
  parts <> [] ->
  Forall (fun p => free_of newline p = true) parts ->
  split_char newline ("    " ++ join ("," ++ nl ++ "    ") parts ++ nl ++ rest)
  = (column_lines parts ++ split_char newline rest)%list.
Proof.
  induction parts as [|p ps IH]; [congruence|]. intros _ Hfree.
  inversion Hfree as [|? ? Hp Hps]; subst.
  destruct ps as [|p2 ps].
  - cbn [join column_lines List.app].
    replace ("    " ++ p ++ nl ++ rest) with (("    " ++ p) ++ String newline rest)
      by now rewrite append_assoc.
    apply split_char_app. rewrite free_of_append, Hp. reflexivity.
  - change (join ("," ++ nl ++ "    ") (p :: p2 :: ps))
      with (p ++ ("," ++ nl ++ "    ") ++ join ("," ++ nl ++ "    ") (p2 :: ps)).
    change (column_lines (p :: p2 :: ps))
      with (("    " ++ p ++ ",") :: column_lines (p2 :: ps)).
    replace ("    " ++ (p ++ ("," ++ nl ++ "    ")
                          ++ join ("," ++ nl ++ "    ") (p2 :: ps)) ++ nl ++ rest)
      with (("    " ++ p ++ ",")
            ++ String newline
                 ("    " ++ join ("," ++ nl ++ "    ") (p2 :: ps) ++ nl ++ rest))
      by (rewrite !append_assoc; reflexivity).
    rewrite split_char_app.
    + cbn [List.app]. f_equal. apply IH; [discriminate|auto].
    + rewrite !free_of_append, Hp. reflexivity.
Qed.

Lemma join_lines_lines head join_conditions :
  free_of newline head = true ->
  Forall (fun j => free_of newline j = true) join_conditions ->
  split_char newline (head ++ join_lines join_conditions)
  = head :: join_conditions.
Proof.
  intros Hhead Hjoins. revert head Hhead.
  induction Hjoins as [|j js Hj Hjs IH]; intros head Hhead; simpl.
  - rewrite append_empty_r. now apply split_char_free.
  - change (head ++ nl ++ j ++ join_lines js)
      with (head ++ String newline (j ++ join_lines js)).
    rewrite split_char_app by auto. f_equal. now apply IH.
Qed.

(** The lines of a query with at least one column and no line break inside
    its pieces. *)
Lemma assemble_lines parts main_table join_conditions :
  parts <> [] ->
  Forall (fun p => free_of newline p = true) parts ->
  free_of newline main_table = true ->
  Forall (fun j => free_of newline j = true) join_conditions ->
  split_char newline (assemble parts main_table join_conditions)
  = query_lines parts main_table join_conditions.
Proof.
  intros Hne Hparts Hmain Hjoins. unfold query_lines. rewrite assemble_join_lines.
  change ("SELECT" ++ nl ++ ?x) with ("SELECT" ++ String newline x).
  rewrite split_char_app by reflexivity. f_equal.
  rewrite column_text_lines by auto. f_equal.
  replace ("FROM " ++ main_table ++ " main" ++ join_lines join_conditions)
    with (("FROM " ++ main_table ++ " main") ++ join_lines join_conditions)
    by now rewrite !append_assoc.
  apply join_lines_lines; auto.
  rewrite !free_of_append, Hmain. reflexivity.
Qed.

Lemma join_cons2 sep a b l : join sep (a :: b :: l) = a ++ sep ++ join sep (b :: l).
Proof. reflexivity. Qed.

Lemma join_nl_join_lines head join_conditions :
  join nl (head :: join_conditions) = head ++ join_lines join_conditions.
Proof.
  revert head. induction join_conditions as [|j js IH]; intros head.
  - simpl. now rewrite append_empty_r.
  - rewrite join_cons2, IH. reflexivity.
Qed.

Lemma join_nl_column_lines parts last rest :
  parts <> [] ->
  join nl (column_lines parts ++ last :: rest)
  = "    " ++ join ("," ++ nl ++ "    ") parts ++ nl ++ join nl (last :: rest).
Proof.
  induction parts as [|p ps IH]; [congruence|]. intros _.
  destruct ps as [|p2 ps].
  - cbn [column_lines List.app]. rewrite join_cons2.
    cbn [join]. now rewrite !append_assoc.
  - change (column_lines (p :: p2 :: ps))
      with (("    " ++ p ++ ",") :: column_lines (p2 :: ps)).
    assert (Hcons : exists x xs,
               (column_lines (p2 :: ps) ++ last :: rest)%list = x :: xs).
    { destruct ps; simpl; eauto. }
    destruct Hcons as (x & xs & Hx).
    cbn [List.app]. rewrite Hx, join_cons2, <- Hx, IH by discriminate.
    rewrite join_cons2. now rewrite !append_assoc.
Qed.

(** The query whose lines these are. *)
Lemma join_assemble_lines parts main_table join_conditions :
  parts <> [] ->
  join nl (query_lines parts main_table join_conditions)
  = assemble parts main_table join_conditions.
Proof.
  intros Hne. unfold query_lines. rewrite assemble_join_lines.
  assert (Hcons : exists x xs,
             List.app (column_lines parts)
               (("FROM " ++ main_table ++ " main") :: join_conditions)
             = x :: xs).
  { destruct parts as [|p [|p2 ps]]; simpl; eauto. }
  destruct Hcons as (x & xs & Hx).
  rewrite Hx, join_cons2, <- Hx, join_nl_column_lines, join_nl_join_lines by auto.
  now rewrite !append_assoc.
Qed.

(** ** The renamer on a whole generated query *)

Lemma upper_ascii_app a b : upper_ascii (a ++ b) = upper_ascii a ++ upper_ascii b.
Proof. induction a as [|c a IH]; simpl; congruence. Qed.

Lemma ascii_only_append a b : ascii_only (a ++ b) = ascii_only a && ascii_only b.
Proof.
  induction a as [|c a IH]; simpl; auto. now rewrite IH, andb_assoc.
Qed.

Lemma plain_ascii_only s : plain s = true -> ascii_only s = true.
Proof.
  induction s as [|c s IH]; simpl; auto.
  intros H. apply andb_prop in H as [Hc Hs]. rewrite (IH Hs), andb_true_r.
  unfold plain_char in Hc. apply andb_prop in Hc as [_ Hc].
  apply Nat.leb_le in Hc. apply Nat.ltb_lt.
  eapply Nat.le_lt_trans; [exact Hc|]. repeat constructor.
Qed.

(** A word without a space starts a text cut by a space when it starts the
    part before the space. *)
Lemma startswith_before_space kw a b :
  free_of " " kw = true ->
  startswith kw (a ++ String " " b) = startswith kw a.
Proof.
  revert a. induction kw as [|k kw IH]; intros a Hkw; [now destruct a|].
  cbn -[Ascii.eqb] in Hkw. apply andb_prop in Hkw as [Hk Hkw].
  apply negb_true_iff in Hk.
  destruct a as [|c a]; cbn -[Ascii.eqb].
  - now rewrite Hk.
  - now rewrite IH.
Qed.

Lemma keywords_before_space kws a b :
  forallb (free_of " ") kws = true ->
  existsb (fun kw => startswith kw (a ++ String " " b)) kws
  = existsb (fun kw => startswith kw a) kws.
Proof.
  induction kws as [|kw kws IH]; cbn [forallb existsb]; auto.
  intros H. apply andb_prop in H as [Hkw Hkws].
  now rewrite (@startswith_before_space kw a b Hkw), (IH Hkws).
Qed.

Lemma startswith_append p b : startswith p (p ++ b) = true.
Proof.
  induction p as [|c p IH]; cbn -[Ascii.eqb]; auto.
  now rewrite Ascii.eqb_refl.
Qed.

Lemma contains_append p a b : contains p (a ++ p ++ b) = true.
Proof.
  induction a as [|c a IH].
  - cbn [append]. destruct (p ++ b) eqn:E; cbn [contains];
      rewrite <- E, startswith_append; reflexivity.
  - cbn [append contains]. rewrite IH. apply orb_true_r.
Qed.

Lemma drop_blank c w x :
  blank w = true -> plain_char c = true ->
  startswith w (x ++ String c EmptyString) = true ->
  drop (String.length w) (x ++ String c EmptyString)
  = drop (String.length w) x ++ String c EmptyString.
Proof.
  intros Hw Hc. revert x. induction w as [|a w IH]; intros x Hstart.
  - now destruct x.
  - cbn [blank] in Hw. apply andb_prop in Hw as [Ha Hw].
    destruct x as [|b x]; cbn -[Ascii.eqb] in Hstart |- *.
    + apply andb_prop in Hstart as [Hac _].
      apply Ascii.eqb_eq in Hac. subst a. rewrite Hc in Ha. discriminate.
    + apply andb_prop in Hstart as [_ Hstart]. now apply IH.
Qed.

Lemma lstrip_keeps_last c fuel :
  plain_char c = true ->
  forall x, exists y,
    lstrip_chars (map rev whitespace) fuel (x ++ String c EmptyString)
    = y ++ String c EmptyString.
Proof.
  intros Hc. induction fuel as [|fuel IH]; intros x; cbn [lstrip_chars].
  - eauto.
  - destruct (find (fun w => startswith w (x ++ String c EmptyString))
                (map rev whitespace)) as [w|] eqn:Hfind; [|eauto].
    apply find_some in Hfind as [Hin Hstart].
    assert (Hblank : blank w = true).
    { assert (Hall : forallb blank (map rev whitespace) = true) by reflexivity.
      rewrite forallb_forall in Hall. now apply Hall. }
    rewrite (@drop_blank c w x Hblank Hc Hstart). apply IH.
Qed.

(** Stripping keeps a plain first character. *)
Lemma strip_keeps_head c s :
  plain_char c = true -> exists s', strip whitespace (String c s) = String c s'.
Proof.
  intros Hc. unfold strip, lstrip.
  rewrite (@lstrip_chars_stops whitespace _ (String c s))
    by now apply plain_char_not_space.
  unfold rstrip. rewrite rev_cons.
  destruct (@lstrip_keeps_last c (String.length (String c s)) Hc (rev s)) as [y ->].
  rewrite rev_snoc. eauto.
Qed.

Section RenameGenerated.
Variable upper : string -> string.
Hypothesis upper_prefix : upper_on_ascii upper.
Variable normalized_rename : dict string string.

Lemma upper_column alias expr tail :
  plain expr = true ->
  upper (render (alias, expr) ++ tail)
  = upper_ascii expr ++ " AS " ++ upper (dq ++ alias ++ dq ++ tail).
Proof.
  intros Hplain. unfold render. cbn [fst snd].
  replace ((expr ++ " AS " ++ dq ++ alias ++ dq) ++ tail)
    with ((expr ++ " AS ") ++ dq ++ alias ++ dq ++ tail)
    by now rewrite !append_assoc.
  rewrite upper_prefix.
  - rewrite upper_ascii_app. now rewrite !append_assoc.
  - rewrite ascii_only_append, (plain_ascii_only _ Hplain). reflexivity.
Qed.

(** A readable column neither opens nor closes the SELECT list. *)
Lemma column_line_inside alias expr (comma : bool) :
  readable_column (alias, expr) ->
  let line := "    " ++ render (alias, expr)
              ++ (if comma then "," else EmptyString) in
  opens_select upper line = false /\ closes_select upper line = false.
Proof.
  intros (Hne & Hplain & Hkw & _) line. cbn [fst snd] in *.
  unfold keyword_free in Hkw. apply negb_true_iff in Hkw.
  cbn [existsb] in Hkw. apply orb_false_elim in Hkw as [Hsel Hsec].
  unfold opens_select, closes_select, line.
  rewrite (@strip_column_line expr alias comma Hne Hplain),
    (@upper_column alias expr _ Hplain).
  change (upper_ascii expr ++ " AS " ++ ?x)
    with (upper_ascii expr ++ String " " ("AS " ++ x)).
  split.
  - now rewrite (@startswith_before_space "SELECT" (upper_ascii expr) _ eq_refl).
  - now rewrite (@keywords_before_space section_keywords (upper_ascii expr) _ eq_refl).
Qed.

Lemma contains_as_column alias expr :
  plain expr = true ->
  contains " AS " (upper (render (alias, expr))) = true.
Proof.
  intros Hplain.
  rewrite <- (append_empty_r (render (alias, expr))),
    (@upper_column alias expr _ Hplain).
  apply contains_append.
Qed.

(** The loop on the line of a readable column. *)
Lemma rename_lines_column alias expr (comma : bool) rest out :
  readable_column (alias, expr) ->
  rename_lines upper normalized_rename true rest = Ok out ->
  let tail := if comma then "," else EmptyString in
  rename_lines upper normalized_rename true
    (("    " ++ render (alias, expr) ++ tail) :: rest)
  = Ok (("    " ++ render (rename_column normalized_rename (alias, expr)) ++ tail)
          :: out).
Proof.
  intros Hcol Hrest tail.
  destruct (@column_line_inside alias expr comma Hcol) as [Hopen Hclose].
  destruct Hcol as (Hne & Hplain & _). cbn [fst snd] in *.
  cbn [rename_lines]. fold tail in Hopen, Hclose.
  rewrite Hopen, Hclose. cbn [negb].
  unfold tail.
  rewrite (@rename_field_column upper normalized_rename expr alias comma Hne Hplain
             (@contains_as_column alias expr Hplain)).
  now rewrite Hrest.
Qed.

Lemma rename_lines_columns columns :
  columns <> [] ->
  Forall readable_column columns ->
  forall rest out,
    rename_lines upper normalized_rename true rest = Ok out ->
    rename_lines upper normalized_rename true
      (List.app (column_lines (map render columns)) rest)
    = Ok (List.app
            (column_lines
               (map render (map (rename_column normalized_rename) columns)))
            out).
Proof.
  induction columns as [|[alias expr] cs IH]; [congruence|].
  intros _ Hall rest out Hrest.
  inversion Hall as [|? ? Hc Hcs]; subst.
  destruct cs as [|c2 cs].
  - cbn [map column_lines List.app].
    pose proof (@rename_lines_column alias expr false rest out Hc Hrest) as H.
    cbn zeta in H. rewrite !append_empty_r in H. exact H.
  - change (column_lines (map render ((alias, expr) :: c2 :: cs)))
      with (("    " ++ render (alias, expr) ++ ",")
              :: column_lines (map render (c2 :: cs))).
    change (column_lines
              (map render
                 (map (rename_column normalized_rename)
                    ((alias, expr) :: c2 :: cs))))
      with (("    " ++ render (rename_column normalized_rename (alias, expr)) ++ ",")
              :: column_lines
                   (map render (map (rename_column normalized_rename) (c2 :: cs)))).
    cbn [List.app].
    apply (@rename_lines_column alias expr true _ _ Hc).
    apply IH; [discriminate|auto|auto].
Qed.

(** Outside the SELECT list the loop copies the lines, as long as none opens
    a SELECT. *)
Lemma rename_lines_outside lines :
  Forall (fun line => opens_select upper line = false) lines ->
  rename_lines upper normalized_rename false lines = Ok lines.
Proof.
  induction 1 as [|line rest Hline Hrest IH]; [reflexivity|].
  cbn [rename_lines]. rewrite Hline.
  destruct (closes_select upper line); cbn [negb]; now rewrite IH.
Qed.

Lemma join_line_outside j :
  startswith "LEFT JOIN " j = true -> opens_select upper j = false.
Proof.
  intros Hj. destruct j as [|c j]; [discriminate|].
  cbn -[Ascii.eqb] in Hj. apply andb_prop in Hj as [Hc _].
  apply Ascii.eqb_eq in Hc. subst c.
  destruct (@strip_keeps_head "L" j eq_refl) as [s' Hs].
  unfold opens_select. rewrite Hs.
  change (String "L" s') with ("L" ++ s').
  rewrite upper_prefix by reflexivity. reflexivity.
Qed.

Lemma from_line_closes main_table :
  let line := "FROM " ++ main_table ++ " main" in
  opens_select upper line = false /\ closes_select upper line = true.
Proof.
  intros line.
  assert (Hstrip : strip whitespace line = line).
  { eapply strip_plain_ends with (c := "F"%char) (c' := "n"%char).
    - reflexivity.
    - unfold line.
      replace ("FROM " ++ main_table ++ " main")
        with (("FROM " ++ main_table ++ " mai") ++ "n")
        by now rewrite !append_assoc.
      apply rev_snoc.
    - reflexivity.
    - reflexivity. }
  unfold opens_select, closes_select. rewrite Hstrip. unfold line.
  rewrite upper_prefix by reflexivity. split; reflexivity.
Qed.

Lemma select_line_opens : opens_select upper "SELECT" = true.
Proof.
  unfold opens_select.
  change (strip whitespace "SELECT") with ("SELECT" ++ EmptyString).
  rewrite upper_prefix by reflexivity. reflexivity.
Qed.

(** The loop on the lines of a generated query. *)
Lemma rename_lines_query columns main_table join_conditions :
  columns <> [] ->
  Forall readable_column columns ->
  Forall (fun j => startswith "LEFT JOIN " j = true) join_conditions ->
  rename_lines upper normalized_rename false
    (query_lines (map render columns) main_table join_conditions)
  = Ok (query_lines
          (map render (map (rename_column normalized_rename) columns))
          main_table join_conditions).
Proof.
  intros Hne Hcols Hjoins. unfold query_lines.
  cbn [rename_lines]. rewrite select_line_opens.
  rewrite (@rename_lines_columns columns Hne Hcols
             (("FROM " ++ main_table ++ " main") :: join_conditions)
             (("FROM " ++ main_table ++ " main") :: join_conditions)).
  - reflexivity.
  - destruct (from_line_closes main_table) as [Hopen Hclose].
    cbn [rename_lines]. cbn zeta in Hopen, Hclose. rewrite Hopen, Hclose.
    rewrite rename_lines_outside; [reflexivity|].
    eapply Forall_impl; [|exact Hjoins]. apply join_line_outside.
Qed.

End RenameGenerated.

Lemma render_free_of_newline column :
  readable_column column -> free_of newline (render column) = true.
Proof.
  intros (_ & Hplain & _ & Halias). unfold render.
  rewrite !free_of_append, (plain_free_of_newline _ Hplain), Halias.
  reflexivity.
Qed.

Lemma rename_column_empty columns : map (rename_column []) columns = columns.
Proof.
  induction columns as [|[alias expr] cs IH]; cbn [map]; [reflexivity|].
  now rewrite IH.
Qed.

Lemma assemble_nonempty parts main_table join_conditions :
  assemble parts main_table join_conditions <> EmptyString.
Proof. rewrite assemble_join_lines. discriminate. Qed.

Lemma rename_aliases_query upper columns main_table join_conditions
    rename_dict :
  upper_on_ascii upper ->
  columns <> [] ->
  Forall readable_column columns ->
  free_of newline main_table = true ->
  Forall (fun j => free_of newline j = true) join_conditions ->
  Forall (fun j => startswith "LEFT JOIN " j = true) join_conditions ->
  rename_aliases upper (assemble (map render columns) main_table join_conditions)
    rename_dict
  = Ok (assemble (map render (map (rename_column (normalize rename_dict)) columns))
          main_table join_conditions).
Proof.
  intros Hupper Hne Hcols Hmain Hfree Hjoins.
  pose proof (assemble_nonempty (map render columns) main_table join_conditions)
    as Hq.
  destruct rename_dict as [|kv rename_dict].
  - change (normalize []) with (@nil (string * string)).
    rewrite rename_column_empty.
    unfold rename_aliases.
    now destruct (assemble (map render columns) main_table join_conditions).
  - assert (Hrun : rename_aliases upper
                     (assemble (map render columns) main_table join_conditions)
                     (kv :: rename_dict)
                   = match rename_lines upper (normalize (kv :: rename_dict)) false
                             (split_char newline
                                (assemble (map render columns) main_table
                                   join_conditions)) with
                     | Ok new_lines => Ok (join nl new_lines)
                     | Raise e => Raise e
                     end).
    { unfold rename_aliases.
      destruct (assemble (map render columns) main_table join_conditions);
        [congruence|reflexivity]. }
    rewrite Hrun, assemble_lines.
    + rewrite (@rename_lines_query upper Hupper (normalize (kv :: rename_dict))
                 columns main_table join_conditions Hne Hcols Hjoins).
      rewrite join_assemble_lines; [reflexivity|].
      destruct columns; [congruence|discriminate].
    + destruct columns; [congruence|discriminate].
    + rewrite Forall_map. eapply Forall_impl; [|exact Hcols].
      apply render_free_of_newline.
    + exact Hmain.
    + exact Hfree.
Qed.

Lemma assemble_layout columns main_table join_conditions :
  assemble (map render columns) main_table join_conditions
  = layout columns main_table join_conditions.
Proof. apply assemble_join_lines. Qed.

Lemma join_line_parts join_conditions :
  Forall (fun j => join_line j = true) join_conditions ->
  Forall (fun j => free_of newline j = true) join_conditions
  /\ Forall (fun j => startswith "LEFT JOIN " j = true) join_conditions.
Proof.
  intros H. split; (eapply Forall_impl; [|exact H]); intros j Hj;
    apply andb_prop in Hj; tauto.
Qed.




(** ** Renaming the query of a generation *)

Lemma plain_of_uint d : plain (NilEmpty.string_of_uint d) = true.
Proof. induction d; simpl; auto. Qed.

Lemma plain_of_nat n : plain (of_nat n) = true.
Proof. apply plain_of_uint. Qed.

Lemma startswith_elim p s :
  startswith p s = true -> s = p ++ drop (String.length p) s.
Proof.
  revert s. induction p as [|a p IH]; intros s H; [now destruct s|].
  destruct s as [|b s]; [discriminate|].
  cbn -[Ascii.eqb] in H |- *. apply andb_prop in H as [Hab Hp].
  apply Ascii.eqb_eq in Hab. subst b. f_equal. now apply IH.
Qed.

Lemma table_alias_keyword_free a rest :
  table_alias a = true -> keyword_free (a ++ rest) = true.
Proof.
  unfold table_alias. intros H. apply andb_prop in H as [_ H].
  apply orb_prop in H as [H|H]; [apply orb_prop in H as [H|H]|];
    apply startswith_elim in H; rewrite H; reflexivity.
Qed.

(** An expression the generator writes: a table alias, a dot, a column. *)
Lemma readable_expression a column alias :
  table_alias a = true -> plain column = true ->
  free_of newline alias = true ->
  readable_column (alias, a ++ "." ++ column).
Proof.
  intros Ha Hcolumn Halias. unfold readable_column. cbn [fst snd].
  repeat split; auto.
  - destruct a; discriminate.
  - apply andb_prop in Ha as [Ha _].
    rewrite !plain_append, Ha, Hcolumn. reflexivity.
  - now apply table_alias_keyword_free.
Qed.

Lemma replace_from_free c skip old new s :
  free_of c new = true -> free_of c s = true ->
  free_of c (replace_from skip old new s) = true.
Proof.
  intros Hnew. revert skip.
  induction s as [|a s IH]; intros skip Hs.
  - destruct old; auto.
  - cbn -[Ascii.eqb] in Hs. apply andb_prop in Hs as [Ha Hs].
    cbn [replace_from]. destruct skip as [|k]; [|now apply IH].
    destruct (startswith old (String a s)).
    + destruct old.
      * rewrite free_of_append, Hnew. cbn -[Ascii.eqb].
        now rewrite Ha, IH.
      * rewrite free_of_append, Hnew. now rewrite IH.
    + cbn -[Ascii.eqb]. now rewrite Ha, IH.
Qed.

Lemma replace_free c old new s :
  free_of c new = true -> free_of c s = true ->
  free_of c (replace old new s) = true.
Proof. apply replace_from_free. Qed.

Section DictAll.
Context {K V : Type} `{Key K}.
Variable Q : V -> Prop.

Lemma get_all (k : K) (d : dict K V) v :
  Forall Q (values d) -> get k d = Some v -> Q v.
Proof.
  induction d as [|[k' v'] d IH]; simpl; [discriminate|].
  intros Hall. inversion Hall; subst.
  destruct (keqb k' k); [intros [= <-]|]; auto.
Qed.

Lemma set_values_all (k : K) v (d : dict K V) :
  Q v -> Forall Q (values d) -> Forall Q (values (set k v d)).
Proof.
  intros Hv. induction d as [|[k' v'] d IH]; simpl.
  - repeat constructor; auto.
  - intros Hall. inversion Hall; subst.
    destruct (keqb k' k); simpl; constructor; auto.
Qed.

Lemma set_all_all_values (ops : list (K * V)) :
  Forall Q (map snd ops) ->
  forall d : dict K V, Forall Q (values d) -> Forall Q (values (set_all ops d)).
Proof.
  unfold set_all.
  induction ops as [|[k v] ops IH]; simpl; auto.
  intros Hops d Hd. inversion Hops; subst.
  apply IH; auto. now apply set_values_all.
Qed.
End DictAll.

Lemma clean_row_fields row :
  clean_row row = true ->
  plain (show (gk_field row)) = true
  /\ free_of newline (show (gk_field row)) = true
  /\ free_of newline (field_name row) = true
  /\ free_of newline (fmt (external_table row)) = true
  /\ (forall text, relation row = Text text -> free_of newline text = true).
Proof.
  unfold clean_row. intros H.
  apply andb_prop in H as [H Hrel]. apply andb_prop in H as [H Hext].
  apply andb_prop in H as [Hfield Hname].
  repeat split; auto using plain_free_of_newline.
  intros text Htext. now rewrite Htext in Hrel.
Qed.

Lemma classifier_suffix_plain v info :
  Ok info = _get_field_type_info v -> plain (snd info) = true.
Proof.
  destruct v as [tag| |shown]; simpl; [|intros [= ->]; reflexivity|discriminate].
  repeat match goal with
         | |- context [if ?b then _ else _] => destruct b
         end; intros [= ->]; reflexivity.
Qed.

Lemma getitem_alias (k : cell) ja a :
  tidy_aliases ja ->
  Ok a = match get k ja with
         | Some v => Ok v
         | None => Raise (KeyError k)
         end ->
  table_alias a = true.
Proof.
  intros Hja Ha. destruct (get k ja) as [v|] eqn:E; [|discriminate].
  injection Ha as ->.
  exact (@get_all _ _ _ (fun a => table_alias a = true) k ja v Hja E).
Qed.

Lemma parent_alias column :
  plain column = true -> table_alias ("parent_" ++ column) = true.
Proof.
  intros H. unfold table_alias. rewrite plain_append, H. reflexivity.
Qed.

Lemma ext_alias n : table_alias ("ext_" ++ of_nat n) = true.
Proof.
  unfold table_alias. rewrite plain_append, plain_of_nat. reflexivity.
Qed.

Lemma table_alias_free a : table_alias a = true -> free_of newline a = true.
Proof.
  intros H. apply andb_prop in H as [H _]. now apply plain_free_of_newline.
Qed.

Lemma regular_field_clean row t ja :
  clean_row row = true -> tidy_aliases ja ->
  yields_fx t (_process_regular_field row t ja)
    (fun es r =>
       forall s, r = Ok s ->
         [s] = map render (alias_ops es)
         /\ map fst (alias_ops es) = [field_name row]
         /\ Forall readable_column (alias_ops es)
         /\ join_ops es = []).
Proof.
  intros Hrow Hja.
  destruct (clean_row_fields _ Hrow) as (Hfield & _ & Hname & _).
  unfold _process_regular_field.
  eapply yields_fx_bind; [apply yields_fx_getitem| |].
  - intros es a [-> Ha]. pose proof (getitem_alias _ Hja Ha) as Halias.
    eapply yields_fx_bind; [apply yields_fx_aliases_setitem| |].
    + intros es' [] [-> _]. apply yields_fx_ret.
      intros s [= <-]. simpl. repeat split; auto.
      * unfold render. simpl. now rewrite !append_assoc.
      * constructor; [|constructor]. now apply readable_expression.
    + intros es' e [_ [=]].
  - intros es e _ s [=].
Qed.

Lemma reference_field_clean row t j n main :
  clean_row row = true -> free_of newline main = true ->
  tidy_aliases (join_aliases j) ->
  yields_fx t (_process_reference_field row t j n main)
    (fun es r =>
       forall parts j', r = Ok (parts, j') ->
         parts = map render (alias_ops es)
         /\ map fst (alias_ops es) = [field_name row ++ "_ID"; field_name row]
         /\ Forall readable_column (alias_ops es)
         /\ tidy_joins (join_ops es)
         /\ tidy_aliases (join_aliases j')).
Proof.
  intros Hrow Hmain Hj.
  destruct (clean_row_fields _ Hrow) as (Hfield & Hfree & Hname & Hext & Hrel).
  assert (Hid : free_of newline (field_name row ++ "_ID") = true).
  { rewrite free_of_append, Hname. reflexivity. }
  unfold _process_reference_field.
  eapply yields_fx_bind; [apply yields_fx_lift| |]; cycle 1.
  { intros es e _ parts j' [=]. }
  intros es info [-> Hinfo].
  pose proof (classifier_suffix_plain _ Hinfo) as Hsuffix.
  eapply yields_fx_bind; [apply yields_fx_getitem| |]; cycle 1.
  { intros es e _ parts j' [=]. }
  intros es a [-> Ha]. pose proof (getitem_alias _ Hj Ha) as Halias.
  eapply yields_fx_bind; [apply yields_fx_aliases_setitem| |]; cycle 1.
  { intros es e [_ [=]]. }
  intros es [] [-> _].
  pose proof (parent_alias _ Hfield) as Hparent.
  pose proof (ext_alias n) as Hextn.
  destruct (keqb_spec (external_table row) (Some main)) as [Hself|Hother].
  - eapply yields_fx_bind
      with (P := fun es r =>
                   alias_ops es = []
                   /\ tidy_joins (join_ops es)
                   /\ forall j', r = Ok j' -> tidy_aliases (join_aliases j')).
    + destruct (negb (existsb _ _)).
      * eapply yields_fx_bind; [apply yields_fx_add_join_info| |].
        -- intros es [] [-> _].
           eapply yields_fx_bind; [apply yields_fx_lift| |].
           ++ intros es key [-> Hkey]. apply yields_fx_ret.
              cbn [List.app alias_ops join_ops].
              split; [reflexivity|]. split.
              ** constructor; [|constructor]. cbn [snd]. unfold join_line.
                 rewrite startswith_append, andb_true_r.
                 rewrite !free_of_append, Hext, Hfree. reflexivity.
              ** intros j' [= <-]. cbn [join_aliases].
                 now apply set_values_all.
           ++ intros es e [-> _]. cbn [List.app alias_ops join_ops].
              split; [reflexivity|]. split; [|discriminate].
              constructor; [|constructor]. cbn [snd]. unfold join_line.
              rewrite startswith_append, andb_true_r.
              rewrite !free_of_append, Hext, Hfree. reflexivity.
        -- intros es e [_ [=]].
      * apply yields_fx_ret. repeat split; try constructor.
        intros j' [= <-]. exact Hj.
    + intros es j' (Hal & Hjo & Htidy).
      eapply yields_fx_bind; [apply yields_fx_aliases_setitem| |].
      * intros es' [] [-> _]. apply yields_fx_ret.
        intros parts j'' [= <- <-].
        rewrite !app_nil_r. cbn [List.app alias_ops join_ops].
        rewrite !alias_ops_app, !join_ops_app, Hal.
        cbn [alias_ops join_ops List.app]. rewrite app_nil_r.
        split; [unfold render; simpl; now rewrite !append_assoc|].
        split; [reflexivity|]. split; [|split; auto].
        constructor; [|constructor; [|constructor]];
          now apply readable_expression.
      * intros es' e [_ [=]].
    + intros es e _ parts j' [=].
  - eapply yields_fx_bind
      with (P := fun es r =>
                   alias_ops es = []
                   /\ tidy_joins (join_ops es)
                   /\ forall j', r = Ok j' -> tidy_aliases (join_aliases j')).
    + destruct (negb (mem _ _)).
      * assert (Hset : forall jt,
                  tidy_aliases
                    (join_aliases
                       {| join_aliases :=
                            set (external_table row) ("ext_" ++ of_nat n)
                                (join_aliases j);
                          join_tracker := jt |})).
        { intros jt. cbn [join_aliases]. now apply set_values_all. }
        destruct (relation row) as [text| |shown] eqn:Htext;
          [destruct (negb (existsb _ _))| |destruct (negb (existsb _ _))].
        -- eapply yields_fx_bind; [apply yields_fx_add_join_info| |].
           ++ intros es [] [-> _]. apply yields_fx_ret.
              cbn [List.app alias_ops join_ops].
              split; [reflexivity|]. split.
              ** constructor; [|constructor]. cbn [snd]. unfold join_line.
                 rewrite startswith_append, andb_true_r.
                 rewrite !free_of_append, Hext.
                 rewrite (plain_free_of_newline _ (plain_of_nat n)).
                 rewrite replace_free; [reflexivity|reflexivity|].
                 apply replace_free; [now apply table_alias_free|].
                 now apply Hrel.
              ** intros j' [= <-]. apply Hset.
           ++ intros es e [_ [=]].
        -- apply yields_fx_ret. repeat split; try constructor.
           intros j' [= <-]. apply Hset.
        -- apply yields_fx_ret. repeat split; try constructor.
           intros j' [= <-]. apply Hset.
        -- apply yields_fx_raise. repeat split; try constructor. discriminate.
        -- apply yields_fx_ret. repeat split; try constructor.
           intros j' [= <-]. apply Hset.
      * apply yields_fx_ret. repeat split; try constructor.
        intros j' [= <-]. exact Hj.
    + intros es j' (Hal & Hjo & Htidy).
      eapply yields_fx_bind; [apply yields_fx_getitem| |].
      * intros es' a' [-> Ha'].
        pose proof (getitem_alias _ (Htidy j' eq_refl) Ha') as Halias'.
        eapply yields_fx_bind; [apply yields_fx_aliases_setitem| |].
        -- intros es' [] [-> _]. apply yields_fx_ret.
           intros parts j'' [= <- <-].
           rewrite !app_nil_r. cbn [List.app alias_ops join_ops].
           rewrite !alias_ops_app, !join_ops_app, Hal.
           cbn [alias_ops join_ops List.app]. rewrite app_nil_r.
           split; [unfold render; simpl; now rewrite !append_assoc|].
           split; [reflexivity|]. split; [|split; auto].
           constructor; [|constructor; [|constructor]];
             now apply readable_expression.
        -- intros es' e [_ [=]].
      * intros es' e _ parts j'' [=].
    + intros es e _ parts j' [=].
Qed.

Lemma process_rows_clean t f main rows :
  free_of newline main = true ->
  forallb clean_row (processed f rows) = true ->
  forall l,
    tidy_aliases (join_aliases (shared l)) ->
    yields_fx t (process_rows t f main rows l)
      (fun es r =>
         forall l', r = Ok l' ->
           select_parts l' = (select_parts l ++ map render (alias_ops es))%list
           /\ map fst (alias_ops es) = output_names (processed f rows)
           /\ Forall readable_column (alias_ops es)
           /\ tidy_joins (join_ops es)).
Proof.
  intros Hmain. induction rows as [|row rest IH]; intros Hclean l Hl;
    cbn [process_rows].
  - apply yields_fx_ret. intros l' [= <-]. simpl.
    rewrite app_nil_r. repeat split; constructor.
  - revert Hclean. unfold processed. cbn [filter]. fold (processed f rest).
    destruct (skipped f row); cbn [negb]; [intros Hclean; now apply IH|].
    cbn [forallb]. intros Hclean. apply andb_prop in Hclean as [Hrow Hrest].
    rewrite output_names_cons.
    eapply yields_fx_bind; [apply yields_fx_lift| |]; cycle 1.
    { intros es e _ l' [=]. }
    intros es0 info [-> Hinfo]. cbn [List.app].
    rewrite (is_regular_info _ Hinfo).
    destruct (fst info =? "regular").
    + eapply yields_fx_bind; [now apply regular_field_clean| |].
      * intros es s Hs.
        destruct (Hs s eq_refl) as (Hparts & Hnames & Hread & Hjoins).
        eapply yields_fx_weaken; [apply (IH Hrest); exact Hl|].
        cbv beta. cbn [select_parts shared].
        intros es' r Hr l' ->.
        destruct (Hr l' eq_refl) as (Hp & Hn & Hrd & Hj).
        rewrite alias_ops_app, join_ops_app, !map_app, Hjoins, Hn, Hnames, Hp.
        rewrite Hparts, <- app_assoc. cbn [List.app].
        repeat split; auto. now apply Forall_app.
      * intros es e _ l' [=].
    + eapply yields_fx_bind; [now apply reference_field_clean| |].
      * intros es [parts j'] Hs.
        destruct (Hs parts j' eq_refl)
          as (Hparts & Hnames & Hread & Hjoins & Htidy).
        eapply yields_fx_weaken; [apply (IH Hrest); exact Htidy|].
        cbv beta. cbn [select_parts shared].
        intros es' r Hr l' ->.
        destruct (Hr l' eq_refl) as (Hp & Hn & Hrd & Hj).
        rewrite alias_ops_app, join_ops_app, !map_app, Hn, Hnames, Hp.
        rewrite Hparts, <- app_assoc.
        repeat split; auto.
        -- now apply Forall_app.
        -- unfold tidy_joins. rewrite map_app. now apply Forall_app.
      * intros es e _ l' [=].
Qed.

(** The query of a generation over clean rows, on an instance whose JOIN
    clauses for the table are lines of their own. *)
Lemma generation_clean df t f self first rest q :
  table_data df t = first :: rest ->
  (f = None -> get t (_queries self) = None) ->
  free_of newline (gk_table first) = true ->
  forallb clean_row (processed f (first :: rest)) = true ->
  Forall (fun j => join_line j = true)
    (values match get t (_join_info self) with Some d => d | None => [] end) ->
  snd (generate_query df t f self) = Ok (Some q) ->
  exists columns join_info,
    q = layout columns (gk_table first) (values join_info)
    /\ get t (_join_info (fst (generate_query df t f self))) = Some join_info
    /\ map fst columns = output_names (processed f (first :: rest))
    /\ Forall readable_column columns
    /\ Forall (fun j => join_line j = true) (values join_info).
Proof.
  intros Htd Hq Hmain Hclean Hbefore.
  assert (Hfirst : tidy_aliases
                     (join_aliases (shared (first_loop (gk_table first))))).
  { repeat constructor. }
  destruct (@process_rows_clean t f (gk_table first) (first :: rest) Hmain Hclean
              (first_loop (gk_table first)) Hfirst)
    as (es & r & Hruns & Hpost).
  rewrite (@generate_query_known _ _ _ _ _ _ _ Htd Hruns).
  assert (Hfin : snd (finish t f (gk_table first) r
                        (apply_effects t es (fst (init_stores t self))))
                 = Ok (Some q) ->
                 exists columns join_info,
                   q = layout columns (gk_table first) (values join_info)
                   /\ get t (_join_info
                               (fst (finish t f (gk_table first) r
                                       (apply_effects t es
                                          (fst (init_stores t self))))))
                      = Some join_info
                   /\ map fst columns = output_names (processed f (first :: rest))
                   /\ Forall readable_column columns
                   /\ Forall (fun j => join_line j = true) (values join_info)).
  { destruct r as [l|e]; [|discriminate].
    destruct (Hpost l eq_refl) as (Hparts & Hnames & Hread & Hjoins).
    simpl in Hparts.
    pose proof (generation_join_info t es self) as Hj.
    unfold finish. rewrite Hj, Hparts. intros [= <-].
    exists (alias_ops es). eexists.
    split; [apply assemble_layout|].
    split; [destruct f; exact Hj|].
    repeat split; auto.
    now apply (@set_all_all_values _ _ _ (fun j => join_line j = true)). }
  destruct f as [fields|].
  - destruct (get t (_queries self)); apply Hfin.
  - rewrite Hq by auto. apply Hfin.
Qed.

Lemma output_names_nonempty rows : rows <> [] -> output_names rows <> [].
Proof.
  destruct rows as [|row rows]; [congruence|]. intros _.
  rewrite output_names_cons. destruct (is_regular row); discriminate.
Qed.


